(** * convert-test.py: Supertest call chains rewritten to Hono [app.request]

    A shallow embedding of [src/api/convert-test.py].  The script is one
    function, [convert_test_file], that threads a text through four calls of
    Python's [re.sub], and a main block that reads one file, converts it and
    writes another.

    - Text is a Python [str]: a list of Unicode code points.
    - The four regular expressions are written in a small fragment of the
      [re] syntax (literal characters, [\s*], and the group [([^\)]+)]); the
      fragment is embedded as an abstract syntax with a backtracking matcher
      that tries the alternatives in the order [re] does.
    - [re.sub] is the scan that replaces every leftmost non-overlapping
      match. *)

From Stdlib Require Import List NArith Bool String Ascii Lia PeanoNat.
Import ListNotations.

Local Open Scope N_scope.
Local Open Scope list_scope.

(** * The script *)

(** ** Text *)

Definition char := N.
Definition doc := list char.

(** The code points of a literal written in ASCII. *)
Definition cps (s : string) : doc := map N_of_ascii (list_ascii_of_string s).

Definition nl : char := 10.      (* line feed *)
Definition dq : char := 34.      (* double quote *)
Definition lparen : char := 40.
Definition rparen : char := 41.
Definition dot : char := 46.
Definition semi : char := 59.

(** [\s] on a [str] pattern: the code points for which CPython's
    [Py_UNICODE_ISSPACE] holds. *)
Definition is_space (c : char) : bool :=
  ((9 <=? c) && (c <=? 13)) || ((28 <=? c) && (c <=? 32))
  || (c =? 133) || (c =? 160) || (c =? 5760)
  || ((8192 <=? c) && (c <=? 8202))
  || (c =? 8232) || (c =? 8233) || (c =? 8239) || (c =? 8287) || (c =? 12288).

(** ** The fragment of [re] the script uses *)

(** One-character matchers: a literal (also written escaped, [\(], [\.]),
    [\s], and the negated set [[^c]]. *)
Inductive cclass : Type :=
| Chr (c : char)
| Space
| Except (c : char).

Definition cmatch (k : cclass) (c : char) : bool :=
  match k with
  | Chr d => c =? d
  | Space => is_space c
  | Except d => negb (c =? d)
  end.

(** Pattern items: [x], the greedy [x*], and the capturing group [(x+)]
    with a greedy [+]; groups are numbered from 1 in order of appearance. *)
Inductive item : Type :=
| One (k : cclass)
| Star (k : cclass)
| Group (k : cclass).

Definition pattern := list item.

(** Number of capturing groups of a pattern. *)
Definition groups (p : pattern) : nat :=
  List.length (filter (fun i => match i with Group _ => true | _ => false end) p).

(** Greedy repetition with backtracking: take one more character when it
    matches and only when the rest of the pattern then fails hand the
    characters taken so far to the continuation. *)
Fixpoint many {R : Type} (k : cclass) (cont : doc -> doc -> option R)
         (taken s : doc) : option R :=
  match s with
  | c :: s' =>
      if cmatch k c then
        match many k cont (taken ++ [c]) s' with
        | Some r => Some r
        | None => cont taken s
        end
      else cont taken s
  | [] => cont taken s
  end.

(** [match_here p s] matches [p] at the start of [s]: the captured groups
    and the text left after the match, for the first alternative that
    succeeds. *)
Fixpoint match_here (p : pattern) (s : doc) : option (list doc * doc) :=
  match p with
  | [] => Some ([], s)
  | One k :: p' =>
      match s with
      | c :: s' => if cmatch k c then match_here p' s' else None
      | [] => None
      end
  | Star k :: p' => many k (fun _ s' => match_here p' s') [] s
  | Group k :: p' =>
      many k (fun taken s' =>
                match taken with
                | [] => None
                | _ :: _ =>
                    match match_here p' s' with
                    | Some (caps, rest) => Some (taken :: caps, rest)
                    | None => None
                    end
                end) [] s
  end.

(** ** Replacement templates *)

(** A template is literal characters and group references [\1], [\2], ... *)
Inductive tpiece : Type :=
| TChr (c : char)
| TRef (n : nat).

Definition template := list tpiece.

Definition expand_piece (caps : list doc) (x : tpiece) : doc :=
  match x with
  | TChr c => [c]
  | TRef n => nth (Nat.pred n) caps []
  end.

Definition expand (t : template) (caps : list doc) : doc :=
  flat_map (expand_piece caps) t.

(** [re] compiles the template before it scans and raises [re.error]
    ("invalid group reference") for a reference to a group the pattern does
    not have. *)
Definition template_ok (p : pattern) (t : template) : bool :=
  forallb (fun x => match x with
                    | TChr _ => true
                    | TRef n => (Nat.leb 1 n) && (Nat.leb n (groups p))
                    end) t.

(** ** [re.sub] *)

(** The scan of [re.sub(pattern, repl, string)] with the default [count=0]:
    from the current position the leftmost match is looked for, the text
    before it is copied, the expanded template is emitted and the scan goes
    on after the match.  [must_advance] is set after an empty match, which
    is then not accepted again at the same position.  Each turn either
    consumes a character or sets [must_advance], so [2 * length s + 2] turns
    always suffice. *)
Fixpoint sub_loop (fuel : nat) (p : pattern) (t : template)
         (must_advance : bool) (s : doc) : doc :=
  match fuel with
  | O => s
  | S fuel' =>
      let skip :=
        match s with
        | [] => []
        | c :: s' => c :: sub_loop fuel' p t false s'
        end in
      match match_here p s with
      | Some (caps, rest) =>
          let empty := Nat.eqb (List.length rest) (List.length s) in
          if must_advance && empty then skip
          else expand t caps ++ sub_loop fuel' p t empty rest
      | None => skip
      end
  end.

Definition sub_all (p : pattern) (t : template) (s : doc) : doc :=
  sub_loop (2 * List.length s + 2) p t false s.

(** [None] stands for the [re.error] raised for a bad template. *)
Definition re_sub (p : pattern) (t : template) (s : doc) : option doc :=
  if template_ok p t then Some (sub_all p t s) else None.

(** ** Pattern and template texts *)

Definition backslash : char := 92.

(** The characters with a meaning of their own in a pattern. *)
Definition special (c : char) : bool :=
  existsb (N.eqb c) (cps ".^$*+?{}[]\|()").

(** The one-character matcher at the head of a pattern text: [\s], [\n],
    an escaped special character, the set [[^\c]], or a plain character. *)
Definition parse_class (s : doc) : option (cclass * doc) :=
  match s with
  | c :: s1 =>
      if c =? backslash then
        match s1 with
        | d :: s2 =>
            if d =? 115 then Some (Space, s2)
            else if d =? 110 then Some (Chr nl, s2)
            else if special d then Some (Chr d, s2)
            else None
        | [] => None
        end
      else if c =? 91 then
        match s1 with
        | h :: b :: d :: r :: s2 =>
            if (h =? 94) && (b =? backslash) && special d && (r =? 93)
            then Some (Except d, s2) else None
        | _ => None
        end
      else if special c then None
      else Some (Chr c, s1)
  | [] => None
  end.

(** A pattern text read item by item: [(x+)], [x*] or [x]; [None] for
    anything outside the fragment. *)
Fixpoint parse_items (fuel : nat) (s : doc) : option pattern :=
  match fuel with
  | O => None
  | S fuel' =>
      match s with
      | [] => Some []
      | c :: s1 =>
          if c =? lparen then
            match parse_class s1 with
            | Some (k, p :: q :: s2) =>
                if (p =? 43) && (q =? rparen)
                then option_map (cons (Group k)) (parse_items fuel' s2)
                else None
            | _ => None
            end
          else
            match parse_class s with
            | Some (k, q :: s3) =>
                if q =? 42
                then option_map (cons (Star k)) (parse_items fuel' s3)
                else option_map (cons (One k)) (parse_items fuel' (q :: s3))
            | Some (k, []) => Some [One k]
            | None => None
            end
      end
  end.

Definition parse_re (text : string) : option pattern :=
  parse_items (S (List.length (cps text))) (cps text).

(** A template text: [\1] to [\9] are group references, other characters
    stand for themselves; [None] for any other escape. *)
Fixpoint parse_template (s : doc) : option template :=
  match s with
  | [] => Some []
  | c :: s1 =>
      if c =? backslash then
        match s1 with
        | d :: s2 =>
            if (49 <=? d) && (d <=? 57)
            then option_map (cons (TRef (N.to_nat (d - 48)))) (parse_template s2)
            else None
        | [] => None
        end
      else option_map (cons (TChr c)) (parse_template s1)
  end.

(** ** [convert_test_file] *)

Definition lits (l : doc) : pattern := map (fun c => One (Chr c)) l.
Definition lit (s : string) : pattern := lits (cps s).
Definition tl (s : string) : template := map TChr (cps s).

(** [\s*] and [([^\)]+)]. *)
Definition spaces : pattern := [Star Space].
Definition arg : pattern := [Group (Except rparen)].

(** [r"import request from 'supertest';\n"] *)
Definition import_pattern : pattern :=
  lit "import request from 'supertest';" ++ [One (Chr nl)].

Definition import_template : template := [].

(** [r'await request\(app\.fetch as any\)\s*\.get\(([^\)]+)\)\s*\.set\(([^\)]+)\);'] *)
Definition get_set_pattern : pattern :=
  lit "await request(app.fetch as any)" ++ spaces ++ lit ".get(" ++ arg
  ++ lit ")" ++ spaces ++ lit ".set(" ++ arg ++ lit ");".

(** [r'await app.request(\1, { method: "GET", headers: \2 });'] *)
Definition get_set_template : template :=
  tl "await app.request(" ++ [TRef 1] ++ tl ", { method: " ++ [TChr dq]
  ++ tl "GET" ++ [TChr dq] ++ tl ", headers: " ++ [TRef 2] ++ tl " });".

(** [r'await request\(app\.fetch as any\)\.get\(([^\)]+)\);'] *)
Definition get_pattern : pattern :=
  lit "await request(app.fetch as any).get(" ++ arg ++ lit ");".

(** [r'await app.request(\1, { method: "GET" });'] *)
Definition get_template : template :=
  tl "await app.request(" ++ [TRef 1] ++ tl ", { method: " ++ [TChr dq]
  ++ tl "GET" ++ [TChr dq] ++ tl " });".

(** [r'await request\(app\.fetch as any\)\s*\.post\(([^\)]+)\)\s*\.set\(([^\)]+)\)\s*\.send\(([^\)]+)\);'] *)
Definition post_pattern : pattern :=
  lit "await request(app.fetch as any)" ++ spaces ++ lit ".post(" ++ arg
  ++ lit ")" ++ spaces ++ lit ".set(" ++ arg
  ++ lit ")" ++ spaces ++ lit ".send(" ++ arg ++ lit ");".

(** [r'await app.request(\1, { method: "POST", headers: \2, body: JSON.stringify(\3) });'] *)
Definition post_template : template :=
  tl "await app.request(" ++ [TRef 1] ++ tl ", { method: " ++ [TChr dq]
  ++ tl "POST" ++ [TChr dq] ++ tl ", headers: " ++ [TRef 2]
  ++ tl ", body: JSON.stringify(" ++ [TRef 3] ++ tl ") });".

Definition bind {A B : Type} (x : option A) (f : A -> option B) : option B :=
  match x with
  | Some a => f a
  | None => None
  end.

Notation "x <- e ;; k" := (bind e (fun x => k))
  (at level 61, e at next level, right associativity).

Definition convert_test_file (content : doc) : option doc :=
  content <- re_sub import_pattern import_template content ;;
  content <- re_sub get_set_pattern get_set_template content ;;
  content <- re_sub get_pattern get_template content ;;
  content <- re_sub post_pattern post_template content ;;
  Some content.

(** ** The main block *)

(** What ends a run early: the [OSError] of an [open] that fails, or the
    [re.error] of a bad template. *)
Inductive exn : Type :=
| FileNotFoundError
| PermissionError
| ReError.

(** The part of the machine the script touches: the text files by path,
    which paths can be opened for reading and for writing, and the lines
    printed so far. *)
Record world : Type := {
  files : string -> option doc;
  readable : string -> bool;
  writable : string -> bool;
  stdout : list doc
}.

Definition input_path : string :=
  "/Users/brucewayne/epitome/api/tests/integration/api/graph.test.ts.backup".
Definition output_path : string :=
  "/Users/brucewayne/epitome/api/tests/integration/api/graph.test.ts".

(** [with open(path, 'r') as f: content = f.read()] *)
Definition read_text (w : world) (path : string) : exn + doc :=
  match files w path with
  | None => inl FileNotFoundError
  | Some text => if readable w path then inr text else inl PermissionError
  end.

(** [with open(path, 'w') as f: f.write(text)]: the file is created or
    replaced.  The write is taken as one step: an [open] that is refused
    changes nothing, one that is granted leaves the whole text in the file.
    A device that fails while the text is written, and the permissions a
    newly made file gets, are outside this model. *)
Definition write_text (w : world) (path : string) (text : doc) : exn + world :=
  if writable w path then
    inr {| files := fun p => if String.eqb p path then Some text
                             else files w p;
           readable := readable w;
           writable := writable w;
           stdout := stdout w |}
  else inl PermissionError.

Definition print (w : world) (line : doc) : world :=
  {| files := files w; readable := readable w; writable := writable w;
     stdout := stdout w ++ [line] |}.

(** How a run ends: normally, or with the traceback of an exception
    nothing catches. *)
Inductive outcome : Type :=
| Finished
| Traceback (e : exn).

Definition main (w : world) : world * outcome :=
  match read_text w input_path with
  | inl e => (w, Traceback e)
  | inr content =>
      match convert_test_file content with
      | None => (w, Traceback ReError)
      | Some converted =>
          match write_text w output_path converted with
          | inl e => (w, Traceback e)
          | inr w' => (print w' (cps "Conversion complete!"), Finished)
          end
      end
  end.

(** * Notions for the statements *)

(** ** What a pattern matches *)

Definition all_in (k : cclass) (u : doc) : Prop :=
  Forall (fun c => cmatch k c = true) u.

(** [Matches p w caps]: the whole word [w] is matched by [p], the groups
    capturing [caps].  This is the language of the pattern, whatever order
    the matcher tries things in. *)
Inductive Matches : pattern -> doc -> list doc -> Prop :=
| M_nil : Matches [] [] []
| M_one k c p w caps :
    cmatch k c = true -> Matches p w caps ->
    Matches (One k :: p) (c :: w) caps
| M_star k u p w caps :
    all_in k u -> Matches p w caps ->
    Matches (Star k :: p) (u ++ w) caps
| M_group k u p w caps :
    u <> [] -> all_in k u -> Matches p w caps ->
    Matches (Group k :: p) (u ++ w) (u :: caps).

(** [p] has a match somewhere in [s]. *)
Definition occurs (p : pattern) (s : doc) : Prop :=
  exists pre w post caps, s = pre ++ w ++ post /\ Matches p w caps.

(** The same, decided by running the matcher at every position. *)
Fixpoint occursb (p : pattern) (s : doc) : bool :=
  match match_here p s with
  | Some _ => true
  | None => match s with
            | [] => false
            | _ :: s' => occursb p s'
            end
  end.

(** Patterns that start with a one-character item never match the empty
    word. *)
Definition headed (p : pattern) : Prop := exists k p', p = One k :: p'.

(** The turns a scan still needs from a state. *)
Definition turns (must_advance : bool) (s : doc) : nat :=
  2 * List.length s + (if must_advance then 0 else 1).

(** [l] is found somewhere in [s]. *)
Definition contains (l s : doc) : Prop := exists pre post, s = pre ++ l ++ post.

(** ** The rules *)

Definition rule := (pattern * template)%type.

Definition import_rule : rule := (import_pattern, import_template).
Definition get_set_rule : rule := (get_set_pattern, get_set_template).
Definition get_rule : rule := (get_pattern, get_template).
Definition post_rule : rule := (post_pattern, post_template).

(** Rules 2 to 4, in the order they are applied. *)
Definition conversion_rules : list rule := [get_set_rule; get_rule; post_rule].
Definition rules : list rule := import_rule :: conversion_rules.

(** A conversion rule's pattern without its last item, the semicolon: the
    chain up to the closing parenthesis of its final call. *)
Definition unterminated (r : rule) : pattern := removelast (fst r).

(** ** Rule 1 in the words of the specification *)

Definition import_line : doc := cps "import request from 'supertest';" ++ [nl].

Fixpoint starts_with (l s : doc) : bool :=
  match l, s with
  | [], _ => true
  | a :: l', b :: s' => (a =? b) && starts_with l' s'
  | _ :: _, [] => false
  end.

(** The import-removal step as the specification words it: the first
    occurrence of the line is deleted, later ones are left in place. *)
Fixpoint spec_delete_first (l s : doc) : doc :=
  match s with
  | [] => []
  | c :: s' =>
      if starts_with l s then skipn (List.length l) s
      else c :: spec_delete_first l s'
  end.

(** ** Chains and the calls they become *)

(** The parts of a GET chain with headers that vary: the white space in
    front of [.get] and [.set], and the two argument texts. *)
Record chain_args : Type := {
  before_get : doc;
  path : doc;
  before_set : doc;
  headers : doc
}.

Definition get_set_chain (a : chain_args) : doc :=
  cps "await request(app.fetch as any)" ++ before_get a ++ cps ".get("
  ++ path a ++ cps ")" ++ before_set a ++ cps ".set(" ++ headers a
  ++ cps ");".

Definition get_set_call (a : chain_args) : doc :=
  cps "await app.request(" ++ path a ++ cps ", { method: " ++ dq :: cps "GET"
  ++ dq :: cps ", headers: " ++ headers a ++ cps " });".

(** An argument text the group [([^\)]+)] takes whole. *)
Definition arg_ok (u : doc) : bool :=
  negb (Nat.eqb (List.length u) 0) && forallb (fun c => negb (c =? rparen)) u.

Definition chain_ok (a : chain_args) : bool :=
  forallb is_space (before_get a) && arg_ok (path a)
  && forallb is_space (before_set a) && arg_ok (headers a).

(** The text every conversion rule opens with, up to its closing
    parenthesis. *)
Definition opener0 : doc := cps "await request(app.fetch as any".

Definition three_chains (t0 : doc) (a1 : chain_args) (t1 : doc)
           (a2 : chain_args) (t2 : doc) (a3 : chain_args) (t3 : doc) : doc :=
  t0 ++ get_set_chain a1 ++ t1 ++ get_set_chain a2 ++ t2
  ++ get_set_chain a3 ++ t3.

Definition three_calls (t0 : doc) (a1 : chain_args) (t1 : doc)
           (a2 : chain_args) (t2 : doc) (a3 : chain_args) (t3 : doc) : doc :=
  t0 ++ get_set_call a1 ++ t1 ++ get_set_call a2 ++ t2
  ++ get_set_call a3 ++ t3.

(** [c] has no closing parenthesis and stands in [w] between an opening
    parenthesis and a closing one. *)
Definition in_parentheses (c w : doc) : Prop :=
  ~ In rparen c /\ contains (lparen :: c ++ [rparen]) w.

(** A GET chain without headers around an argument text. *)
Definition get_chain (argument : doc) : doc :=
  cps "await request(app.fetch as any).get(" ++ argument ++ cps ");".

(** The parts of a POST chain that vary. *)
Record post_args : Type := {
  p_before_post : doc;
  p_path : doc;
  p_before_set : doc;
  p_headers : doc;
  p_before_send : doc;
  p_payload : doc
}.

Definition post_chain (a : post_args) : doc :=
  cps "await request(app.fetch as any)" ++ p_before_post a ++ cps ".post("
  ++ p_path a ++ cps ")" ++ p_before_set a ++ cps ".set(" ++ p_headers a
  ++ cps ")" ++ p_before_send a ++ cps ".send(" ++ p_payload a ++ cps ");".

Definition post_call (a : post_args) : doc :=
  cps "await app.request(" ++ p_path a ++ cps ", { method: " ++ dq :: cps "POST"
  ++ dq :: cps ", headers: " ++ p_headers a ++ cps ", body: JSON.stringify("
  ++ p_payload a ++ cps ") });".

Definition post_ok (a : post_args) : bool :=
  forallb is_space (p_before_post a) && arg_ok (p_path a)
  && forallb is_space (p_before_set a) && arg_ok (p_headers a)
  && forallb is_space (p_before_send a) && arg_ok (p_payload a).

(** ** Sample texts and machines *)

Definition two_imports : doc := import_line ++ cps "x" ++ import_line.

Definition put_delete_patch_chains : doc :=
  cps "await request(app.fetch as any).put('/a').set(h).send(p);" ++ [nl]
  ++ cps "await request(app.fetch as any).delete('/b').set(h);" ++ [nl]
  ++ cps "await request(app.fetch as any).patch('/c').set(h).send(q);" ++ [nl].

Definition sample_t0 : doc := cps "const a = ".
Definition sample_a1 : chain_args :=
  {| before_get := []; path := cps "'/a'";
     before_set := []; headers := cps "h1" |}.
Definition sample_t1 : doc :=
  [nl] ++ cps "await request(app.fetch as any).put('/p').set(h).send(x);"
  ++ [nl] ++ cps "const b = ".
Definition sample_a2 : chain_args :=
  {| before_get := nl :: cps "  "; path := cps "`/b/${id}`";
     before_set := nl :: cps "  "; headers := cps "{ ...h2 }" |}.
Definition sample_t2 : doc := [nl] ++ cps "// unrelated (note)" ++ [nl].
Definition sample_a3 : chain_args :=
  {| before_get := []; path := cps "'/c'";
     before_set := cps " "; headers := cps "h3" |}.
Definition sample_t3 : doc := [nl] ++ cps "expect(a.status).toBe(200);" ++ [nl].

Definition no_files : world :=
  {| files := fun _ => None; readable := fun _ => true;
     writable := fun _ => true; stdout := [] |}.

Definition backup_only : world :=
  {| files := fun p =>
       if String.eqb p input_path
       then Some (cps "await request(app.fetch as any).get('/bar');")
       else None;
     readable := fun _ => true; writable := fun _ => true; stdout := [] |}.

(** ** Further texts *)

(** The text every conversion rule opens with. *)
Definition opener : doc := cps "await request(app.fetch as any)".

(** The call a GET chain without headers becomes. *)
Definition get_call (argument : doc) : doc :=
  cps "await app.request(" ++ argument ++ cps ", { method: " ++ dq :: cps "GET"
  ++ dq :: cps " });".

(** A GET chain without headers with white space in front of [.get]. *)
Definition get_chain_spaced (ws argument : doc) : doc :=
  cps "await request(app.fetch as any)" ++ ws ++ cps ".get(" ++ argument
  ++ cps ");".

(** A GET chain with headers whose [.set()] has no argument. *)
Definition get_set_chain_no_headers (ws1 argument ws2 : doc) : doc :=
  cps "await request(app.fetch as any)" ++ ws1 ++ cps ".get(" ++ argument
  ++ cps ")" ++ ws2 ++ cps ".set();".

(** Some closing parenthesis of [s] is followed by the text [u], a dot, the
    character [c] and the text [rest], up to the end of [s]: a chained call
    of a method that starts with [c]. *)
Definition chained (u : doc) (c : char) (rest s : doc) : Prop :=
  exists y, s = y ++ rparen :: u ++ dot :: c :: rest.

(** A document of any number of GET chains with headers, each behind its
    separator, and the document of the calls they become. *)
Fixpoint chains_doc (l : list (doc * chain_args)) (last : doc) : doc :=
  match l with
  | [] => last
  | (t, a) :: l' => t ++ get_set_chain a ++ chains_doc l' last
  end.

Fixpoint calls_doc (l : list (doc * chain_args)) (last : doc) : doc :=
  match l with
  | [] => last
  | (t, a) :: l' => t ++ get_set_call a ++ calls_doc l' last
  end.


(** A chained call: the white space in front of its dot, the name of the
    method and the text of its argument. *)
Record call : Type := {
  c_ws : doc;
  c_name : doc;
  c_arg : doc
}.

Definition render_call (k : call) : doc :=
  c_ws k ++ dot :: c_name k ++ lparen :: c_arg k ++ [rparen].

(** A chain of any calls behind [await request(app.fetch as any)], closed
    by a semicolon. *)
Definition call_chain (cs : list call) : doc :=
  cps "await request(app.fetch as any)" ++ flat_map render_call cs ++ [semi].

(** White space in front, a name without parentheses and an argument
    without closing parenthesis. *)
Definition call_ok (k : call) : bool :=
  forallb is_space (c_ws k)
  && forallb (fun c => negb (c =? lparen) && negb (c =? rparen)) (c_name k)
  && forallb (fun c => negb (c =? rparen)) (c_arg k).

(** The chains a conversion rule takes whole, and the calls they become:
    the chains of its shape whose arguments are not empty and hold no
    closing parenthesis. *)
Inductive converts : rule -> doc -> doc -> Prop :=
| converts_get_set a :
    chain_ok a = true ->
    converts get_set_rule (get_set_chain a) (get_set_call a)
| converts_get x :
    arg_ok x = true -> converts get_rule (get_chain x) (get_call x)
| converts_post a :
    post_ok a = true -> converts post_rule (post_chain a) (post_call a).

(** A character with which no pattern goes on behind a closing
    parenthesis: the patterns go on with a semicolon, or with white space
    and a dot. *)
Definition stops (d : char) : bool :=
  negb (d =? semi) && negb (d =? dot) && negb (is_space d).

(** An argument text in which every closing parenthesis stands directly in
    front of such a character; behind the last character of the argument
    comes the closing parenthesis of the call. *)
Fixpoint guarded (x : doc) : bool :=
  match x with
  | [] => true
  | c :: x' => (negb (c =? rparen) || stops (hd rparen x')) && guarded x'
  end.

(** White space in front, a name without parentheses and a guarded
    argument. *)
Definition nested_ok (k : call) : bool :=
  forallb is_space (c_ws k)
  && forallb (fun c => negb (c =? lparen) && negb (c =? rparen)) (c_name k)
  && guarded (c_arg k).

(** ** Further sample texts *)

(** A comment that ends in an unclosed [.get(]. *)
Definition sample_dangling : doc :=
  cps "// old: await request(app.fetch as any).get(" ++ [nl].

Definition sample_nested : list call :=
  [ {| c_ws := []; c_name := cps "get"; c_arg := cps "url('/a')" |};
    {| c_ws := nl :: cps "  "; c_name := cps "set";
       c_arg := cps "auth(user, role)" |} ].

Definition sample_post : post_args :=
  {| p_before_post := nl :: cps "  "; p_path := cps "'/baz'";
     p_before_set := nl :: cps "  "; p_headers := cps "{ ...h }";
     p_before_send := nl :: cps "  "; p_payload := cps "{ a: [1, 2] }" |}.

Definition sample_chains : list (doc * chain_args) :=
  [(sample_t0, sample_a1); (sample_t1, sample_a2); (sample_t2, sample_a3);
   (nl :: cps "const d = ", sample_a1)].

Definition sample_put : list call :=
  [ {| c_ws := []; c_name := cps "put"; c_arg := cps "'/a'" |};
    {| c_ws := nl :: cps "  "; c_name := cps "set"; c_arg := cps "h" |};
    {| c_ws := nl :: cps "  "; c_name := cps "send"; c_arg := cps "body" |} ].

Definition sample_get_set : list call :=
  [ {| c_ws := []; c_name := cps "get"; c_arg := cps "'/a'" |};
    {| c_ws := []; c_name := cps "set"; c_arg := cps "h" |} ].

Definition sample_expect : call :=
  {| c_ws := []; c_name := cps "expect"; c_arg := cps "200" |}.

(** * Proofs *)

(** Closed statements about the script are settled by running it. *)
Ltac run := vm_compute; reflexivity.

(** ** The patterns as the script writes them *)

(** The four patterns are the raw strings of the script. *)
Lemma patterns_as_written :
  parse_re "import request from 'supertest';\n" = Some import_pattern
  /\ parse_re "await request\(app\.fetch as any\)\s*\.get\(([^\)]+)\)\s*\.set\(([^\)]+)\);"
     = Some get_set_pattern
  /\ parse_re "await request\(app\.fetch as any\)\.get\(([^\)]+)\);"
     = Some get_pattern
  /\ parse_re "await request\(app\.fetch as any\)\s*\.post\(([^\)]+)\)\s*\.set\(([^\)]+)\)\s*\.send\(([^\)]+)\);"
     = Some post_pattern.
Proof. repeat split; run. Qed.

(** The four templates are the replacement strings of the script. *)
Lemma templates_as_written :
  parse_template [] = Some import_template
  /\ parse_template
       (cps "await app.request(\1, { method: " ++ dq :: cps "GET" ++ dq
        :: cps ", headers: \2 });")
     = Some get_set_template
  /\ parse_template
       (cps "await app.request(\1, { method: " ++ dq :: cps "GET" ++ dq
        :: cps " });")
     = Some get_template
  /\ parse_template
       (cps "await app.request(\1, { method: " ++ dq :: cps "POST" ++ dq
        :: cps ", headers: \2, body: JSON.stringify(\3) });")
     = Some post_template.
Proof. repeat split; run. Qed.

(** ** The matcher against the language *)

Section Many.
Context {R : Type} (k : cclass) (cont : doc -> doc -> option R).

Lemma many_sound taken s r :
  many k cont taken s = Some r ->
  exists u s', s = u ++ s' /\ all_in k u /\ cont (taken ++ u) s' = Some r.
Proof.
  revert taken. induction s as [|c s IH]; intros taken H; simpl in H.
  - exists [], []. rewrite (app_nil_r taken).
    split; [reflexivity|split; [constructor|assumption]].
  - destruct (cmatch k c) eqn:Hc.
    + destruct (many k cont (taken ++ [c]) s) as [r0|] eqn:Hm.
      * injection H as <-. apply IH in Hm.
        destruct Hm as (u & s' & -> & Hu & Hk).
        exists (c :: u), s'. rewrite <- app_assoc in Hk.
        split; [reflexivity|split; [constructor; assumption|assumption]].
      * exists [], (c :: s). rewrite (app_nil_r taken).
        split; [reflexivity|split; [constructor|assumption]].
    + exists [], (c :: s). rewrite (app_nil_r taken).
      split; [reflexivity|split; [constructor|assumption]].
Qed.

Lemma many_fallback taken s r :
  cont taken s = Some r -> exists r', many k cont taken s = Some r'.
Proof.
  intros H. destruct s as [|c s]; simpl; eauto.
  destruct (cmatch k c); eauto.
  destruct (many k cont (taken ++ [c]) s); eauto.
Qed.

Lemma many_complete u : forall taken s r,
  all_in k u -> cont (taken ++ u) s = Some r ->
  exists r', many k cont taken (u ++ s) = Some r'.
Proof.
  induction u as [|c u IH]; intros taken s r Hu H.
  - rewrite app_nil_r in H. simpl. eapply many_fallback; eauto.
  - inversion Hu as [|? ? Hc Hu']; subst. simpl. rewrite Hc.
    destruct (IH (taken ++ [c]) s r Hu') as [r' Hr'].
    + rewrite <- app_assoc. exact H.
    + rewrite Hr'. eauto.
Qed.

(** When the text after [u] cannot extend the repetition, the greedy
    choice is [u] itself, and it is final once the continuation accepts. *)
Lemma many_forced u : forall taken s r,
  all_in k u ->
  (forall c s', s = c :: s' -> cmatch k c = false) ->
  cont (taken ++ u) s = Some r ->
  many k cont taken (u ++ s) = Some r.
Proof.
  induction u as [|c u IH]; intros taken s r Hu Hstop H.
  - rewrite app_nil_r in H. simpl. destruct s as [|c s]; simpl; auto.
    rewrite (Hstop c s eq_refl). exact H.
  - inversion Hu as [|? ? Hc Hu']; subst. simpl. rewrite Hc.
    rewrite (IH (taken ++ [c]) s r); auto.
    rewrite <- app_assoc. exact H.
Qed.
End Many.

Lemma match_here_sound p : forall s caps rest,
  match_here p s = Some (caps, rest) ->
  exists w, s = w ++ rest /\ Matches p w caps.
Proof.
  induction p as [|[k|k|k] p IH]; intros s caps rest H; simpl in H.
  - injection H as <- <-. exists []. split; auto. constructor.
  - destruct s as [|c s]; [discriminate|].
    destruct (cmatch k c) eqn:Hc; [|discriminate].
    apply IH in H. destruct H as (w & -> & Hw).
    exists (c :: w). split; auto. constructor; auto.
  - apply many_sound in H. destruct H as (u & s' & -> & Hu & H).
    apply IH in H. destruct H as (w & -> & Hw).
    exists (u ++ w). rewrite app_assoc. split; auto. constructor; auto.
  - apply many_sound in H. destruct H as (u & s' & -> & Hu & H).
    simpl in H. destruct u as [|c u]; [discriminate|].
    destruct (match_here p s') as [[caps' rest']|] eqn:Hm; [|discriminate].
    injection H as <- <-. apply IH in Hm. destruct Hm as (w & -> & Hw).
    exists ((c :: u) ++ w). rewrite app_assoc. split; auto.
    constructor; auto. discriminate.
Qed.

Lemma match_here_complete p w caps :
  Matches p w caps ->
  forall rest, exists r, match_here p (w ++ rest) = Some r.
Proof.
  induction 1 as [|k c p w caps Hc _ IH|k u p w caps Hu _ IH
                  |k u p w caps Hne Hu _ IH]; intros rest; simpl.
  - eauto.
  - rewrite Hc. apply IH.
  - destruct (IH rest) as [r Hr]. rewrite <- app_assoc.
    eapply many_complete; eauto.
  - destruct (IH rest) as [[caps' rest'] Hr]. rewrite <- app_assoc.
    eapply many_complete with (r := (u :: caps', rest')); eauto.
    simpl. destruct u; [congruence|]. rewrite Hr. reflexivity.
Qed.

Lemma Matches_headed_nonempty p w caps :
  headed p -> Matches p w caps -> w <> [].
Proof.
  intros (k & p' & ->) H. inversion H; subst. discriminate.
Qed.

Lemma match_here_shorter p s caps rest :
  headed p -> match_here p s = Some (caps, rest) ->
  (List.length rest < List.length s)%nat.
Proof.
  intros Hh H. apply match_here_sound in H. destruct H as (w & -> & Hw).
  apply (Matches_headed_nonempty _ _ _ Hh) in Hw.
  rewrite length_app. destruct w; [congruence|]. simpl. lia.
Qed.

Lemma match_here_none p s :
  (forall w rest caps, s = w ++ rest -> ~ Matches p w caps) ->
  match_here p s = None.
Proof.
  intros H. destruct (match_here p s) as [[caps rest]|] eqn:Hm; auto.
  apply match_here_sound in Hm. destruct Hm as (w & -> & Hw).
  exfalso. eapply H; eauto.
Qed.

Lemma occursb_false p s : occursb p s = false <-> ~ occurs p s.
Proof.
  split.
  - induction s as [|c s IH]; simpl; intros H (pre & w & post & caps & E & Hw).
    + destruct (match_here p []) eqn:Hm; [discriminate|].
      destruct pre; [|discriminate]. destruct w; [|discriminate].
      destruct (match_here_complete _ _ _ Hw post) as [r Hr].
      simpl in Hr, E. rewrite <- E in Hr. congruence.
    + destruct (match_here p (c :: s)) eqn:Hm; [discriminate|].
      destruct pre as [|c' pre].
      * destruct (match_here_complete _ _ _ Hw post) as [r Hr].
        simpl in E. rewrite <- E in Hr. congruence.
      * injection E as -> E. apply IH; auto.
        exists pre, w, post, caps. auto.
  - induction s as [|c s IH]; simpl; intros H.
    + destruct (match_here p []) as [[caps rest]|] eqn:Hm; auto.
      exfalso. apply H. apply match_here_sound in Hm.
      destruct Hm as (w & E & Hw). exists [], w, rest, caps. auto.
    + destruct (match_here p (c :: s)) as [[caps rest]|] eqn:Hm.
      * exfalso. apply H. apply match_here_sound in Hm.
        destruct Hm as (w & E & Hw). exists [], w, rest, caps. auto.
      * apply IH. intros (pre & w & post & caps & E & Hw). apply H.
        exists (c :: pre), w, post, caps. subst. auto.
Qed.

(** A closed text holds no match of a pattern when the matcher finds none
    at any position. *)
Ltac no_occurrence := apply occursb_false; run.

(** ** The scan of [re.sub] *)

Lemma match_here_suffix p s caps rest :
  match_here p s = Some (caps, rest) ->
  (List.length rest <= List.length s)%nat.
Proof.
  intros H. apply match_here_sound in H. destruct H as (w & -> & _).
  rewrite length_app. lia.
Qed.

Section Scan.
Variables (p : pattern) (t : template).

(** Fuel beyond the turns needed changes nothing: [sub_all] never stops
    for lack of fuel. *)
Lemma sub_loop_fuel : forall f1 f2 b s,
  (turns b s < f1)%nat -> (turns b s < f2)%nat ->
  sub_loop f1 p t b s = sub_loop f2 p t b s.
Proof.
  unfold turns.
  induction f1 as [|f1 IH]; intros f2 b s H1 H2; [lia|].
  destruct f2 as [|f2]; [lia|]. simpl.
  assert (Hskip :
    match s with [] => [] | c :: s' => c :: sub_loop f1 p t false s' end =
    match s with [] => [] | c :: s' => c :: sub_loop f2 p t false s' end).
  { destruct s as [|c s']; auto. f_equal. simpl in H1, H2.
    apply IH; lia. }
  destruct (match_here p s) as [[caps rest]|] eqn:Hm; auto.
  pose proof (match_here_suffix _ _ _ _ Hm) as Hle.
  destruct (Nat.eqb (List.length rest) (List.length s)) eqn:He.
  - apply Nat.eqb_eq in He. destruct b; simpl; auto.
    f_equal. apply IH; lia.
  - apply Nat.eqb_neq in He. rewrite andb_false_r.
    f_equal. apply IH; lia.
Qed.

(** Where no match starts the character is copied. *)
Lemma sub_all_none c s :
  match_here p (c :: s) = None ->
  sub_all p t (c :: s) = c :: sub_all p t s.
Proof.
  intros H. unfold sub_all.
  replace (2 * List.length (c :: s) + 2)%nat
    with (S (2 * List.length s + 3))%nat by (simpl; lia).
  cbn [sub_loop]. rewrite H. f_equal.
  apply sub_loop_fuel; unfold turns; lia.
Qed.

(** Text in which no match starts is copied. *)
Lemma sub_all_skip x : forall y,
  (forall x1 x2, x = x1 ++ x2 -> x2 <> [] -> match_here p (x2 ++ y) = None) ->
  sub_all p t (x ++ y) = x ++ sub_all p t y.
Proof.
  induction x as [|c x IH]; intros y H; auto.
  simpl. rewrite sub_all_none.
  - f_equal. apply IH. intros x1 x2 -> Hne.
    apply (H (c :: x1) x2); auto.
  - apply (H [] (c :: x)); auto. discriminate.
Qed.

(** The patterns of the script open with a literal, so their matches are
    never empty and [must_advance] stays unset. *)
Hypothesis p_headed : headed p.

Lemma sub_all_nil : sub_all p t [] = [].
Proof.
  destruct p_headed as (k & p' & ->). reflexivity.
Qed.

(** A match is replaced by the expanded template and the scan goes on
    behind it. *)
Lemma sub_all_some s caps rest :
  match_here p s = Some (caps, rest) ->
  sub_all p t s = expand t caps ++ sub_all p t rest.
Proof.
  intros H. pose proof (match_here_shorter _ _ _ _ p_headed H) as Hlt.
  unfold sub_all.
  replace (2 * List.length s + 2)%nat
    with (S (2 * List.length s + 1))%nat by lia.
  cbn [sub_loop]. rewrite H.
  replace (Nat.eqb (List.length rest) (List.length s)) with false
    by (symmetry; apply Nat.eqb_neq; lia).
  cbn [andb]. f_equal.
  apply sub_loop_fuel; unfold turns; lia.
Qed.

Lemma sub_all_no_occurrence s : ~ occurs p s -> sub_all p t s = s.
Proof.
  intros Hno. rewrite <- (app_nil_r s) at 1.
  rewrite sub_all_skip.
  - rewrite sub_all_nil. apply app_nil_r.
  - intros x1 x2 -> _. apply match_here_none.
    intros w rest caps E Hw. apply Hno.
    exists x1, w, rest, caps. rewrite app_nil_r in E. rewrite E. auto.
Qed.
End Scan.

(** The scan on patterns that match the empty word, as [re.sub] does it
    since Python 3.7: [re.sub(r'\s*', '-', 'a b')] is ['-a--b-']. *)
Remark sub_all_empty_matches :
  sub_all [Star Space] [TChr 45] (cps "a b") = cps "-a--b-"
  /\ sub_all (arg ++ lit ")") [TChr 91; TRef 1; TChr 93] (cps "ab)c))d)")
     = cps "[ab][c])[d]".
Proof. split; run. Qed.

(** ** Literals, [\s*] and [([^\)]+)] *)

(** A text is cut at the first occurrence of a character in one way only. *)
Lemma split_at_first (e : char) : forall a a' b b',
  a ++ e :: b = a' ++ e :: b' -> ~ In e a -> ~ In e a' -> a = a' /\ b = b'.
Proof.
  induction a as [|x a IH]; intros [|x' a'] b b' E Ha Ha'; simpl in *.
  - injection E as ->. auto.
  - injection E as <- _. tauto.
  - injection E as -> _. tauto.
  - injection E as -> E. destruct (IH a' b b' E) as [-> ->]; tauto.
Qed.

Lemma all_in_app k u v : all_in k (u ++ v) <-> all_in k u /\ all_in k v.
Proof. apply Forall_app. Qed.

Lemma all_in_except e u : all_in (Except e) u <-> ~ In e u.
Proof.
  unfold all_in. rewrite Forall_forall. simpl. split.
  - intros H Hin. apply H in Hin. rewrite N.eqb_refl in Hin. discriminate.
  - intros H c Hc. destruct (N.eqb_spec c e); subst; tauto.
Qed.

Lemma Matches_lits_inv l : forall p w caps,
  Matches (lits l ++ p) w caps ->
  exists w', w = l ++ w' /\ Matches p w' caps.
Proof.
  induction l as [|c l IH]; intros p w caps H; simpl in H.
  - exists w. auto.
  - inversion H as [|k c' p' w0 caps' Hc Hw| |]; subst.
    simpl in Hc. apply N.eqb_eq in Hc. subst c'.
    apply IH in Hw. destruct Hw as (w' & -> & Hw').
    exists w'. auto.
Qed.

Lemma Matches_lits l : Matches (lits l) l [].
Proof.
  induction l as [|c l IH]; simpl; constructor; auto.
  simpl. apply N.eqb_refl.
Qed.

Lemma Matches_lits_only l w caps :
  Matches (lits l) w caps -> w = l /\ caps = [].
Proof.
  intros H. rewrite <- (app_nil_r (lits l)) in H.
  apply Matches_lits_inv in H. destruct H as (w' & -> & H).
  inversion H; subst. rewrite app_nil_r. auto.
Qed.

Lemma Matches_spaces_inv p w caps :
  Matches (spaces ++ p) w caps ->
  exists u w', w = u ++ w' /\ all_in Space u /\ Matches p w' caps.
Proof.
  intros H. inversion H; subst. eauto.
Qed.

Lemma Matches_arg_inv p w caps :
  Matches (arg ++ p) w caps ->
  exists u w' caps', w = u ++ w' /\ caps = u :: caps' /\ u <> [] /\
                     ~ In rparen u /\ Matches p w' caps'.
Proof.
  intros H. inversion H; subst.
  do 3 eexists. rewrite <- all_in_except. eauto.
Qed.

Lemma match_here_lits l : forall p s,
  match_here (lits l ++ p) (l ++ s) = match_here p s.
Proof.
  induction l as [|c l IH]; intros p s; simpl; auto.
  rewrite N.eqb_refl. apply IH.
Qed.

(** A match of a pattern that opens with a literal starts with it. *)
Lemma match_here_lits_inv l p s r :
  match_here (lits l ++ p) s = Some r -> exists s', s = l ++ s'.
Proof.
  destruct r as [caps rest]. intros H. apply match_here_sound in H.
  destruct H as (w & -> & Hw). apply Matches_lits_inv in Hw.
  destruct Hw as (w' & -> & _). exists (w' ++ rest). symmetry. apply app_assoc.
Qed.

(** [\s*] before a character that is not white space takes exactly the
    white space in front of it. *)
Lemma match_here_spaces p u c s r :
  all_in Space u -> is_space c = false ->
  match_here p (c :: s) = Some r ->
  match_here (spaces ++ p) (u ++ c :: s) = Some r.
Proof.
  intros Hu Hc H. simpl. apply many_forced; auto.
  intros c' s' [= <- <-]. exact Hc.
Qed.

(** [([^\)]+)] in front of a closing parenthesis captures exactly the text
    up to it. *)
Lemma match_here_arg p u s caps rest :
  u <> [] -> ~ In rparen u ->
  match_here p (rparen :: s) = Some (caps, rest) ->
  match_here (arg ++ p) (u ++ rparen :: s) = Some (u :: caps, rest).
Proof.
  intros Hne Hu H. simpl. apply many_forced.
  - apply all_in_except. exact Hu.
  - intros c' s' [= <- <-]. reflexivity.
  - simpl. destruct u; [congruence|]. rewrite H. reflexivity.
Qed.

(** ** The rules *)

Lemma rules_headed r : In r rules -> headed (fst r).
Proof.
  intros [<-|[<-|[<-|[<-|[]]]]]; eexists _, _; reflexivity.
Qed.

Lemma rules_template_ok r : In r rules -> template_ok (fst r) (snd r) = true.
Proof.
  intros [<-|[<-|[<-|[<-|[]]]]]; reflexivity.
Qed.

Lemma re_sub_rule r s :
  In r rules -> re_sub (fst r) (snd r) s = Some (sub_all (fst r) (snd r) s).
Proof.
  intros H. unfold re_sub. rewrite rules_template_ok; auto.
Qed.

(** The script never raises [re.error]: all four templates are valid, so
    [convert_test_file] returns a text for every text. *)
Lemma convert_test_file_eq content :
  convert_test_file content =
  Some (sub_all post_pattern post_template
         (sub_all get_pattern get_template
           (sub_all get_set_pattern get_set_template
             (sub_all import_pattern import_template content)))).
Proof. reflexivity. Qed.

(** ** The three conversions on the sample chains *)

(** C1: the GET chain with headers
    [await request(app.fetch as any).get('/foo').set(myHeaders);] is
    rewritten to the single call
    [await app.request('/foo', { method: "GET", headers: myHeaders });]. *)
Theorem C1_get_with_headers :
  convert_test_file
    (cps "await request(app.fetch as any).get('/foo').set(myHeaders);")
  = Some (cps "await app.request('/foo', { method: " ++ dq :: cps "GET"
          ++ dq :: cps ", headers: myHeaders });").
Proof. run. Qed.

(** C2: the POST chain with headers and body
    [await request(app.fetch as any).post('/baz').set(h).send(payload);] is
    rewritten to
    [await app.request('/baz', { method: "POST", headers: h, body: JSON.stringify(payload) });]. *)
Theorem C2_post_with_headers_and_body :
  convert_test_file
    (cps "await request(app.fetch as any).post('/baz').set(h).send(payload);")
  = Some (cps "await app.request('/baz', { method: " ++ dq :: cps "POST"
          ++ dq :: cps ", headers: h, body: JSON.stringify(payload) });").
Proof. run. Qed.

(** C3: the GET chain without headers
    [await request(app.fetch as any).get('/bar');] is rewritten to
    [await app.request('/bar', { method: "GET" });]. *)
Theorem C3_get_without_headers :
  convert_test_file (cps "await request(app.fetch as any).get('/bar');")
  = Some (cps "await app.request('/bar', { method: " ++ dq :: cps "GET"
          ++ dq :: cps " });").
Proof. run. Qed.

(** ** Rule 1: the import line *)

Lemma not_in_by_eqb (e : char) l :
  forallb (fun c => negb (c =? e)) l = true -> ~ In e l.
Proof.
  rewrite forallb_forall. intros H Hin. apply H in Hin.
  rewrite N.eqb_refl in Hin. discriminate.
Qed.

Lemma last_cases (m : doc) : m = [] \/ exists m0 e, m = m0 ++ [e].
Proof.
  induction m as [|e m _] using rev_ind; eauto.
Qed.

(** A literal whose last character occurs nowhere else in it cannot
    overlap a copy of itself. *)
Lemma literal_no_overlap (l0 : doc) (e : char) x y rest :
  ~ In e l0 ->
  x ++ (l0 ++ [e]) ++ y = (l0 ++ [e]) ++ rest ->
  x = [] \/ exists z, x = (l0 ++ [e]) ++ z.
Proof.
  intros He E. apply app_eq_app in E.
  destruct E as (m & [[-> _]|[E1 E2]]); [right; eauto|].
  destruct (last_cases m) as [->|(m0 & e' & ->)].
  - rewrite app_nil_r in E1. right. exists [].
    rewrite app_nil_r. auto.
  - left. rewrite app_assoc in E1. apply app_inj_tail in E1.
    destruct E1 as [E1 <-]. rewrite <- !app_assoc in E2. simpl in E2.
    apply split_at_first in E2; auto.
    + destruct E2 as [E2 _]. rewrite E2 in E1.
      apply (f_equal (@List.length char)) in E1. rewrite length_app in E1.
      destruct x; auto. simpl in E1. lia.
    + intros Hin. apply He. rewrite E1. apply in_or_app. auto.
Qed.

Lemma occurs_lits l s : occurs (lits l) s <-> contains l s.
Proof.
  split.
  - intros (pre & w & post & caps & -> & Hw).
    apply Matches_lits_only in Hw. destruct Hw as [-> _].
    exists pre, post. reflexivity.
  - intros (pre & post & ->). exists pre, l, post, [].
    split; auto. apply Matches_lits.
Qed.

Lemma import_pattern_lits : import_pattern = lits import_line.
Proof. reflexivity. Qed.

Lemma no_import_line s :
  occursb import_pattern s = false -> ~ contains import_line s.
Proof.
  intros H. apply occursb_false in H. rewrite import_pattern_lits in H.
  rewrite occurs_lits in H. exact H.
Qed.

(** Scanning for a literal [l0 ++ [e]]: a text without it is copied up to
    the next copy of the literal. *)
Lemma sub_all_lits_next (l0 : doc) (e : char) t pre post :
  ~ In e l0 -> ~ contains (l0 ++ [e]) pre ->
  sub_all (lits (l0 ++ [e])) t (pre ++ (l0 ++ [e]) ++ post)
  = pre ++ expand t [] ++ sub_all (lits (l0 ++ [e])) t post.
Proof.
  intros He Hpre. rewrite sub_all_skip.
  - f_equal. apply sub_all_some.
    + destruct l0; eexists _, _; reflexivity.
    + rewrite <- (app_nil_r (lits _)). rewrite match_here_lits. reflexivity.
  - intros x1 x2 -> Hne.
    destruct (match_here _ (x2 ++ _)) as [r|] eqn:Hm; auto. exfalso.
    rewrite <- (app_nil_r (lits _)) in Hm. apply match_here_lits_inv in Hm.
    destruct Hm as (s' & E). apply literal_no_overlap in E; auto.
    destruct E as [->|(z & ->)]; [congruence|].
    apply Hpre. exists x1, z. reflexivity.
Qed.

Lemma nl_not_in_import_line :
  ~ In nl (cps "import request from 'supertest';").
Proof. apply not_in_by_eqb. reflexivity. Qed.

Lemma import_step_absent s :
  ~ contains import_line s ->
  re_sub import_pattern import_template s = Some s.
Proof.
  intros H. unfold re_sub. simpl. f_equal.
  apply sub_all_no_occurrence.
  - eexists _, _; reflexivity.
  - rewrite import_pattern_lits, occurs_lits. exact H.
Qed.

Lemma import_step_next pre post :
  ~ contains import_line pre ->
  re_sub import_pattern import_template (pre ++ import_line ++ post)
  = (post' <- re_sub import_pattern import_template post ;;
     Some (pre ++ post')).
Proof.
  intros H. unfold re_sub. simpl. f_equal.
  rewrite import_pattern_lits. unfold import_line.
  apply (sub_all_lits_next _ _ import_template pre post
           nl_not_in_import_line H).
Qed.

(** Two import lines: in the words of the specification the second one
    stays; [re.sub] is called without [count], so it goes as well. *)
Lemma C4_counterexample :
  re_sub import_pattern import_template two_imports = Some (cps "x")
  /\ spec_delete_first import_line two_imports = cps "x" ++ import_line
  /\ re_sub import_pattern import_template two_imports
     <> Some (spec_delete_first import_line two_imports).
Proof.
  split; [run|]. split; [run|]. vm_compute. discriminate.
Qed.

(** Cutting the one import line out can join its neighbours into a new
    one: the result is not always free of the line. *)
Remark import_removal_can_splice :
  re_sub import_pattern import_template
    (cps "import request from 'super" ++ import_line ++ cps "test';" ++ [nl])
  = Some import_line.
Proof. run. Qed.

(** C4 (amended): the import-removal step deletes every occurrence of the
    line [import request from 'supertest';] with its line break, not only
    the first: a text without the line is unchanged; the text up to the
    first line is kept, the line is dropped and the step goes on in the
    same way after it; and a text with exactly one such line comes out as
    the text before it followed by the text after it. *)
Theorem C4_import_removal :
  (forall s, ~ contains import_line s ->
     re_sub import_pattern import_template s = Some s)
  /\ (forall pre post, ~ contains import_line pre ->
        re_sub import_pattern import_template (pre ++ import_line ++ post)
        = (post' <- re_sub import_pattern import_template post ;;
           Some (pre ++ post')))
  /\ (forall pre post,
        ~ contains import_line pre -> ~ contains import_line post ->
        re_sub import_pattern import_template (pre ++ import_line ++ post)
        = Some (pre ++ post)).
Proof.
  split; [exact import_step_absent|].
  split; [exact import_step_next|].
  intros pre post Hpre Hpost. rewrite import_step_next by assumption.
  rewrite import_step_absent by assumption. reflexivity.
Qed.

Lemma C4_import_removal_witness :
  re_sub import_pattern import_template
    (cps "import { app } from '@/index';" ++ [nl] ++ import_line
     ++ cps "const x = 1;")
  = Some (cps "import { app } from '@/index';" ++ [nl] ++ cps "const x = 1;").
Proof.
  rewrite (app_assoc _ [nl]).
  apply (proj2 (proj2 C4_import_removal)
           (cps "import { app } from '@/index';" ++ [nl])
           (cps "const x = 1;"));
    apply no_import_line; run.
Defined.

(** ** Text no rule matches *)

Lemma rule_no_occurrence r s :
  In r rules -> ~ occurs (fst r) s -> sub_all (fst r) (snd r) s = s.
Proof.
  intros Hr Hno. apply sub_all_no_occurrence; auto. apply rules_headed; auto.
Qed.

(** C5: on a text in which none of the four patterns has a match the
    rewriter is the identity, and so is applying it twice.  Chains with
    PUT, DELETE or PATCH are such text. *)
Theorem C5_unmatched_text_unchanged (s : doc) :
  (forall r, In r rules -> ~ occurs (fst r) s) ->
  convert_test_file s = Some s
  /\ (s' <- convert_test_file s ;; convert_test_file s') = Some s.
Proof.
  intros H.
  assert (E : convert_test_file s = Some s).
  { rewrite convert_test_file_eq.
    rewrite (rule_no_occurrence import_rule), (rule_no_occurrence get_set_rule),
      (rule_no_occurrence get_rule), (rule_no_occurrence post_rule);
      try apply H; simpl; tauto. }
  split; [exact E|]. rewrite E. simpl. exact E.
Qed.

Lemma C5_unmatched_text_unchanged_witness :
  convert_test_file put_delete_patch_chains = Some put_delete_patch_chains
  /\ (s' <- convert_test_file put_delete_patch_chains ;; convert_test_file s')
     = Some put_delete_patch_chains.
Proof.
  apply (C5_unmatched_text_unchanged put_delete_patch_chains).
  intros r [<-|[<-|[<-|[<-|[]]]]]; no_occurrence.
Defined.

(** ** Chains and the calls they become *)

Lemma arg_ok_spec u : arg_ok u = true -> u <> [] /\ ~ In rparen u.
Proof.
  unfold arg_ok. rewrite andb_true_iff. intros [Hn Hu]. split.
  - intros ->. discriminate.
  - apply not_in_by_eqb. exact Hu.
Qed.

Lemma spaces_spec u : forallb is_space u = true -> all_in Space u.
Proof.
  unfold all_in. rewrite forallb_forall, Forall_forall. auto.
Qed.

Lemma match_here_spaces_lits u c l p s r :
  all_in Space u -> is_space c = false ->
  match_here p s = Some r ->
  match_here (spaces ++ lits (c :: l) ++ p) (u ++ (c :: l) ++ s) = Some r.
Proof.
  intros Hu Hc H. apply match_here_spaces; auto.
  rewrite <- H. apply (match_here_lits (c :: l)).
Qed.

Lemma match_here_arg_lits u l p s caps rest :
  u <> [] -> ~ In rparen u ->
  match_here p s = Some (caps, rest) ->
  match_here (arg ++ lits (rparen :: l) ++ p) (u ++ (rparen :: l) ++ s)
  = Some (u :: caps, rest).
Proof.
  intros Hne Hu H. apply match_here_arg; auto.
  rewrite <- H. apply (match_here_lits (rparen :: l)).
Qed.

(** Rule 2 matches a well-formed chain as a whole, whatever white space
    stands in front of [.get] and [.set], and captures its two arguments. *)
Lemma get_set_chain_match a rest :
  chain_ok a = true ->
  match_here get_set_pattern (get_set_chain a ++ rest)
  = Some ([path a; headers a], rest).
Proof.
  unfold chain_ok. rewrite !andb_true_iff.
  intros [[[Hw1 Hp] Hw2] Hh].
  apply spaces_spec in Hw1, Hw2. apply arg_ok_spec in Hp, Hh.
  unfold get_set_chain. rewrite <- !app_assoc.
  change get_set_pattern with
    (lits (cps "await request(app.fetch as any)") ++ spaces
     ++ lits (dot :: cps "get(") ++ arg ++ lits (rparen :: []) ++ spaces
     ++ lits (dot :: cps "set(") ++ arg ++ lits (rparen :: [semi]) ++ []).
  rewrite match_here_lits.
  apply (match_here_spaces_lits _ dot (cps "get(")); auto.
  apply (match_here_arg_lits _ []); try tauto.
  apply (match_here_spaces_lits _ dot (cps "set(")); auto.
  apply (match_here_arg_lits _ [semi]); tauto || reflexivity.
Qed.

Lemma get_set_expand a :
  expand get_set_template [path a; headers a] = get_set_call a.
Proof.
  reflexivity.
Qed.

(** ** Where a match of rule 2 can start *)

(** Cutting a text at some occurrence of [e], when its cut at the first
    occurrence is known. *)
Lemma split_at_occurrence (e : char) f : forall y m g,
  y ++ e :: m = f ++ e :: g -> ~ In e f ->
  (y = f /\ m = g) \/ (exists y', y = f ++ e :: y' /\ y' ++ e :: m = g).
Proof.
  induction f as [|c f IH]; intros [|c' y] m g E Hf; simpl in *.
  - injection E as ->. auto.
  - injection E as -> E. right. eauto.
  - injection E as -> _. tauto.
  - injection E as -> E. destruct (IH y m g E) as [[-> ->]|(y' & -> & E')];
      [tauto|auto|right; eauto].
Qed.

(** White space in front of a character that is not white space is
    determined by the text. *)
Lemma spaces_prefix_unique u : forall v c d a b,
  all_in Space u -> all_in Space v ->
  is_space c = false -> is_space d = false ->
  u ++ c :: a = v ++ d :: b -> u = v /\ c = d /\ a = b.
Proof.
  induction u as [|x u IH]; intros [|y v] c d a b Hu Hv Hc Hd E; simpl in *.
  - injection E as -> ->. auto.
  - injection E as -> _. inversion Hv; subst. simpl in *. congruence.
  - injection E as -> _. inversion Hu; subst. simpl in *. congruence.
  - injection E as -> E. inversion Hu; inversion Hv; subst.
    destruct (IH v c d a b) as (-> & -> & ->); auto.
Qed.

Lemma spaces_no_char u c : all_in Space u -> is_space c = false -> ~ In c u.
Proof.
  unfold all_in. rewrite Forall_forall. intros H Hc Hin.
  apply H in Hin. simpl in Hin. congruence.
Qed.

(** The words rule 2 matches. *)
Lemma Matches_get_set_inv w caps :
  Matches get_set_pattern w caps ->
  exists u1 g1 u2 g2,
    w = opener0 ++ rparen :: (u1 ++ cps ".get(" ++ g1)
        ++ rparen :: (u2 ++ cps ".set(" ++ g2) ++ rparen :: [semi]
    /\ caps = [g1; g2]
    /\ all_in Space u1 /\ all_in Space u2
    /\ g1 <> [] /\ ~ In rparen g1 /\ g2 <> [] /\ ~ In rparen g2.
Proof.
  intros H. unfold get_set_pattern, lit in H.
  apply Matches_lits_inv in H. destruct H as (w1 & -> & H).
  apply Matches_spaces_inv in H. destruct H as (u1 & w2 & -> & Hu1 & H).
  apply Matches_lits_inv in H. destruct H as (w3 & -> & H).
  apply Matches_arg_inv in H.
  destruct H as (g1 & w4 & caps1 & -> & -> & Hg1 & Hg1' & H).
  apply Matches_lits_inv in H. destruct H as (w5 & -> & H).
  apply Matches_spaces_inv in H. destruct H as (u2 & w6 & -> & Hu2 & H).
  apply Matches_lits_inv in H. destruct H as (w7 & -> & H).
  apply Matches_arg_inv in H.
  destruct H as (g2 & w8 & caps2 & -> & -> & Hg2 & Hg2' & H).
  apply Matches_lits_only in H. destruct H as [-> ->].
  exists u1, g1, u2, g2. rewrite <- !app_assoc.
  repeat split; auto.
Qed.

Lemma semi_not_in_opener0 : ~ In semi opener0.
Proof. apply not_in_by_eqb. reflexivity. Qed.

Lemma rparen_not_in_opener0 : ~ In rparen opener0.
Proof. apply not_in_by_eqb. reflexivity. Qed.

Lemma ends_with_in (e : char) x m w0 :
  x ++ m = w0 ++ [e] -> m <> [] -> In e m.
Proof.
  intros E Hm. destruct (last_cases m) as [->|(m0 & e' & ->)]; [congruence|].
  rewrite app_assoc in E. apply app_inj_tail in E. destruct E as [_ ->].
  apply in_or_app. right. left. reflexivity.
Qed.

Lemma get_set_chain_unfold a rest :
  get_set_chain a ++ rest
  = opener0 ++ rparen :: before_get a ++ dot :: cps "get(" ++ path a
    ++ rparen :: before_set a ++ dot :: cps "set(" ++ headers a
    ++ rparen :: semi :: rest.
Proof.
  unfold get_set_chain. rewrite <- !app_assoc. reflexivity.
Qed.

Lemma app_eq_self (x l : doc) : x ++ l = l -> x = [].
Proof.
  intros E. apply (f_equal (@List.length char)) in E.
  rewrite length_app in E. destruct x; auto. simpl in E. lia.
Qed.

Lemma get_set_not_before_chain t a rest :
  ~ occurs get_set_pattern t -> chain_ok a = true ->
  forall x1 x2, t = x1 ++ x2 -> x2 <> [] ->
  match_here get_set_pattern (x2 ++ get_set_chain a ++ rest) = None.
Proof.
  intros Ht Ha x1 x2 -> Hx2. apply match_here_none.
  intros w rest' caps E Hw.
  assert (Hocc : forall z, x2 <> w ++ z).
  { intros z ->. apply Ht. exists x1, w, z, caps. auto. }
  pose proof (Matches_get_set_inv _ _ Hw)
    as (u1 & g1 & u2 & g2 & Ew & _ & Hu1 & Hu2 & _ & Hg1 & _ & Hg2).
  unfold chain_ok in Ha. rewrite !andb_true_iff in Ha.
  destruct Ha as [[[Hw1 _] _] _]. apply spaces_spec in Hw1.
  apply app_eq_app in E. destruct E as (m & [[E _]|[E1 E2]]).
  { exact (Hocc _ E). }
  assert (Hm : m <> []).
  { intros ->. rewrite app_nil_r in E1. apply (Hocc []).
    rewrite app_nil_r. auto. }
  assert (Hsemi : In semi m).
  { apply (ends_with_in semi x2 m
             (opener0 ++ rparen :: (u1 ++ cps ".get(" ++ g1)
              ++ rparen :: (u2 ++ cps ".set(" ++ g2) ++ [rparen])); auto.
    rewrite <- E1, Ew.
    repeat (rewrite <- app_assoc || rewrite <- app_comm_cons).
    reflexivity. }
  rewrite get_set_chain_unfold in E2. symmetry in E2.
  apply app_eq_app in E2. destruct E2 as (k & [[Em Ek]|[Em _]]).
  2:{ apply semi_not_in_opener0. rewrite Em. apply in_or_app. auto. }
  destruct k as [|c k].
  { apply semi_not_in_opener0. rewrite app_nil_r in Em. congruence. }
  injection Ek as <- Ek. subst m. clear Hm Hsemi.
  rewrite app_assoc in E1. rewrite Ew in E1. symmetry in E1.
  apply split_at_occurrence in E1; [|exact rparen_not_in_opener0].
  destruct E1 as [[E1 _]|(y1 & _ & E1)].
  { apply app_eq_self in E1. contradiction. }
  apply split_at_occurrence in E1.
  2:{ intros Hin. apply in_app_or in Hin. destruct Hin as [Hin|Hin].
      - revert Hin. apply spaces_no_char; auto.
      - apply in_app_or in Hin. destruct Hin as [Hin|Hin]; [|tauto].
        revert Hin. apply not_in_by_eqb. reflexivity. }
  destruct E1 as [[_ E1]|(y2 & _ & E1)].
  { subst k. rewrite <- !app_assoc in Ek.
    apply (spaces_prefix_unique _ _ dot dot) in Ek; auto.
    destruct Ek as (_ & _ & Ek). discriminate. }
  apply split_at_occurrence in E1.
  2:{ intros Hin. apply in_app_or in Hin. destruct Hin as [Hin|Hin].
      - revert Hin. apply spaces_no_char; auto.
      - apply in_app_or in Hin. destruct Hin as [Hin|Hin]; [|tauto].
        revert Hin. apply not_in_by_eqb. reflexivity. }
  destruct E1 as [[_ E1]|(y3 & _ & E1)].
  - subst k. destruct (before_get a) as [|c ws]; [discriminate|].
    injection Ek as -> _. inversion Hw1; subst. discriminate.
  - destruct y3 as [|c [|c' y3]]; discriminate.
Qed.

(** One step of the scan of rule 2: text without a match is copied up to
    the next chain, which is replaced by its call. *)
Lemma get_set_step t a rest :
  ~ occurs get_set_pattern t -> chain_ok a = true ->
  sub_all get_set_pattern get_set_template (t ++ get_set_chain a ++ rest)
  = t ++ get_set_call a ++ sub_all get_set_pattern get_set_template rest.
Proof.
  intros Ht Ha. rewrite sub_all_skip.
  - f_equal. rewrite (sub_all_some _ _ (rules_headed get_set_rule
      (or_intror (or_introl eq_refl))) _ _ _ (get_set_chain_match a rest Ha)).
    rewrite get_set_expand. reflexivity.
  - apply get_set_not_before_chain; auto.
Qed.

(** ** Three chains in one document *)

(** The claim as worded fails.  Every separator below is text that none of
    the four patterns matches, and the three chains are well formed; yet
    the first separator, a comment that ends in an unclosed [.get(], does
    not come out as it went in: rule 3 closes it with the parenthesis of
    the call that rule 2 has written behind it. *)
Lemma C7_counterexample :
  (forall t r, In t [sample_dangling; sample_t1; sample_t2; sample_t3] ->
               In r rules -> ~ occurs (fst r) t)
  /\ chain_ok sample_a1 = true /\ chain_ok sample_a2 = true
  /\ chain_ok sample_a3 = true
  /\ convert_test_file
       (three_chains sample_dangling sample_a1 sample_t1 sample_a2 sample_t2
                     sample_a3 sample_t3)
     = Some (cps "// old: await app.request(" ++ nl
             :: cps "await app.request('/a', { method: " ++ dq :: cps "GET"
             ++ dq :: cps ", headers: h1 }, { method: " ++ dq :: cps "GET"
             ++ dq :: cps " });" ++ sample_t1 ++ get_set_call sample_a2
             ++ sample_t2 ++ get_set_call sample_a3 ++ sample_t3)
  /\ convert_test_file
       (three_chains sample_dangling sample_a1 sample_t1 sample_a2 sample_t2
                     sample_a3 sample_t3)
     <> Some (three_calls sample_dangling sample_a1 sample_t1 sample_a2
                          sample_t2 sample_a3 sample_t3).
Proof.
  split; [|repeat split; try run; vm_compute; discriminate].
  intros t r [<-|[<-|[<-|[<-|[]]]]] [<-|[<-|[<-|[<-|[]]]]]; no_occurrence.
Qed.

(** C7 (amended): a document of three GET chains with headers comes out
    with each chain replaced by its call and every character of the
    separating text in place when no rule matches in that text during the
    run: the import line is nowhere in the document, rule 2 matches
    nothing inside a separator, and rules 3 and 4, which scan the text
    rule 2 leaves, match nothing there.  The chains are well formed: any
    white space in front of [.get] and [.set], arguments that are not
    empty and hold no closing parenthesis. *)
Theorem C7_three_chains_frame
        (t0 : doc) (a1 : chain_args) (t1 : doc) (a2 : chain_args) (t2 : doc)
        (a3 : chain_args) (t3 : doc) :
  chain_ok a1 = true -> chain_ok a2 = true -> chain_ok a3 = true ->
  ~ contains import_line (three_chains t0 a1 t1 a2 t2 a3 t3) ->
  (forall t, In t [t0; t1; t2; t3] -> ~ occurs get_set_pattern t) ->
  ~ occurs get_pattern (three_calls t0 a1 t1 a2 t2 a3 t3) ->
  ~ occurs post_pattern (three_calls t0 a1 t1 a2 t2 a3 t3) ->
  convert_test_file (three_chains t0 a1 t1 a2 t2 a3 t3)
  = Some (three_calls t0 a1 t1 a2 t2 a3 t3).
Proof.
  intros H1 H2 H3 Himp Hsep Hget Hpost.
  rewrite convert_test_file_eq. f_equal.
  rewrite (sub_all_no_occurrence import_pattern).
  2:{ eexists _, _; reflexivity. }
  2:{ rewrite import_pattern_lits, occurs_lits. exact Himp. }
  assert (E : sub_all get_set_pattern get_set_template
                (three_chains t0 a1 t1 a2 t2 a3 t3)
              = three_calls t0 a1 t1 a2 t2 a3 t3).
  { unfold three_chains, three_calls.
    rewrite !get_set_step; try (apply Hsep; simpl; tauto); auto.
    rewrite (rule_no_occurrence get_set_rule); auto.
    - simpl; tauto.
    - apply Hsep. simpl. tauto. }
  rewrite E.
  rewrite (rule_no_occurrence get_rule), (rule_no_occurrence post_rule);
    simpl; auto; tauto.
Qed.

Lemma C7_three_chains_frame_witness :
  convert_test_file
    (three_chains sample_t0 sample_a1 sample_t1 sample_a2 sample_t2
                  sample_a3 sample_t3)
  = Some (three_calls sample_t0 sample_a1 sample_t1 sample_a2 sample_t2
                      sample_a3 sample_t3).
Proof.
  apply C7_three_chains_frame; try reflexivity.
  - apply no_import_line. run.
  - intros t [<-|[<-|[<-|[<-|[]]]]]; no_occurrence.
  - no_occurrence.
  - no_occurrence.
Defined.

(** Why rules 3 and 4 are looked at on the text rule 2 leaves: a separator
    that ends in an unclosed [.get(] matches no rule by itself, yet rule 3
    closes it with the parenthesis of the call rule 2 has just written. *)
Remark dangling_get_takes_the_call :
  occursb get_set_pattern (cps "await request(app.fetch as any).get(") = false
  /\ occursb get_pattern (cps "await request(app.fetch as any).get(") = false
  /\ convert_test_file
       (cps "await request(app.fetch as any).get("
        ++ cps "await request(app.fetch as any).get('/a').set(h);")
     = Some (cps "await app.request(await app.request('/a', { method: "
             ++ dq :: cps "GET" ++ dq :: cps ", headers: h }, { method: "
             ++ dq :: cps "GET" ++ dq :: cps " });").
Proof. repeat split; run. Qed.

(** ** White space in rules 3 and 4 *)

(** Rule 4 matches a well-formed POST chain as a whole, whatever white
    space stands in front of [.post], [.set] and [.send]. *)
Lemma post_chain_match a rest :
  post_ok a = true ->
  match_here post_pattern (post_chain a ++ rest)
  = Some ([p_path a; p_headers a; p_payload a], rest).
Proof.
  unfold post_ok. rewrite !andb_true_iff.
  intros [[[[[Hw1 Hp] Hw2] Hh] Hw3] Hd].
  apply spaces_spec in Hw1, Hw2, Hw3. apply arg_ok_spec in Hp, Hh, Hd.
  unfold post_chain. rewrite <- !app_assoc.
  change post_pattern with
    (lits (cps "await request(app.fetch as any)") ++ spaces
     ++ lits (dot :: cps "post(") ++ arg ++ lits (rparen :: []) ++ spaces
     ++ lits (dot :: cps "set(") ++ arg ++ lits (rparen :: []) ++ spaces
     ++ lits (dot :: cps "send(") ++ arg ++ lits (rparen :: [semi]) ++ []).
  rewrite match_here_lits.
  apply (match_here_spaces_lits _ dot (cps "post(")); auto.
  apply (match_here_arg_lits _ []); try tauto.
  apply (match_here_spaces_lits _ dot (cps "set(")); auto.
  apply (match_here_arg_lits _ []); try tauto.
  apply (match_here_spaces_lits _ dot (cps "send(")); auto.
  apply (match_here_arg_lits _ [semi]); tauto || reflexivity.
Qed.

Lemma get_set_chain_rewritten a :
  chain_ok a = true ->
  re_sub get_set_pattern get_set_template (get_set_chain a)
  = Some (get_set_call a).
Proof.
  intros Ha. rewrite (re_sub_rule get_set_rule) by (simpl; tauto). f_equal.
  cbn [fst snd get_set_rule]. rewrite <- (app_nil_r (get_set_chain a)).
  rewrite (sub_all_some _ _ (rules_headed get_set_rule
    (or_intror (or_introl eq_refl))) _ _ _ (get_set_chain_match a [] Ha)).
  rewrite get_set_expand, sub_all_nil by (eexists _, _; reflexivity).
  apply app_nil_r.
Qed.

Lemma post_chain_rewritten a :
  post_ok a = true ->
  re_sub post_pattern post_template (post_chain a) = Some (post_call a).
Proof.
  intros Ha. rewrite (re_sub_rule post_rule) by (simpl; tauto). f_equal.
  cbn [fst snd post_rule]. rewrite <- (app_nil_r (post_chain a)).
  rewrite (sub_all_some _ _ (rules_headed post_rule
    (or_intror (or_intror (or_intror (or_introl eq_refl))))) _ _ _
    (post_chain_match a [] Ha)).
  rewrite sub_all_nil by (eexists _, _; reflexivity).
  rewrite app_nil_r. reflexivity.
Qed.

(** Rule 3 has no [\s*]: with any white space after
    [await request(app.fetch as any)] it does not match there. *)
Lemma get_rule_rejects_white_space ws rest :
  ws <> [] -> all_in Space ws ->
  match_here get_pattern (cps "await request(app.fetch as any)" ++ ws ++ rest)
  = None.
Proof.
  intros Hne Hws.
  change get_pattern with
    (lits (cps "await request(app.fetch as any)")
     ++ lits (cps ".get(") ++ arg ++ lits (cps ");")).
  rewrite match_here_lits. destruct ws as [|c ws]; [congruence|].
  inversion Hws as [|? ? Hc _]; subst. simpl in Hc |- *.
  destruct (N.eqb_spec c 46) as [->|_]; [discriminate|reflexivity].
Qed.

(** ** Rule 3 and line breaks *)

(** C6: rules 2 and 4 allow white space between the chained calls, rule 3
    has no [\s*] in front of [.get]: the GET chain without headers broken
    after [await request(app.fetch as any)] is left as it is, and is not the
    call [await app.request('/bar', { method: "GET" });]. *)
Theorem C6_get_chain_line_break_kept :
  convert_test_file
    (cps "await request(app.fetch as any)" ++ nl :: cps ".get('/bar');")
  = Some (cps "await request(app.fetch as any)" ++ nl :: cps ".get('/bar');")
  /\ convert_test_file
       (cps "await request(app.fetch as any)" ++ nl :: cps ".get('/bar');")
     <> Some (cps "await app.request('/bar', { method: " ++ dq :: cps "GET"
              ++ dq :: cps " });").
Proof. split; vm_compute; [reflexivity|discriminate]. Qed.

(** The same break in front of [.get] and [.set] is accepted by rule 2 ... *)
Remark get_set_chain_line_breaks :
  convert_test_file
    (cps "await request(app.fetch as any)" ++ nl :: cps ".get('/bar')"
     ++ nl :: cps ".set(h);")
  = Some (cps "await app.request('/bar', { method: " ++ dq :: cps "GET"
          ++ dq :: cps ", headers: h });").
Proof. run. Qed.

(** ... and by rule 4 in front of [.post], [.set] and [.send]. *)
Remark post_chain_line_breaks :
  convert_test_file
    (cps "await request(app.fetch as any)" ++ nl :: cps ".post('/baz')"
     ++ nl :: cps ".set(h)" ++ nl :: cps ".send(payload);")
  = Some (cps "await app.request('/baz', { method: " ++ dq :: cps "POST"
          ++ dq :: cps ", headers: h, body: JSON.stringify(payload) });").
Proof. run. Qed.

(** ** The closing semicolon *)

Lemma Matches_app_lits_inv l p : forall w caps,
  Matches (p ++ lits l) w caps ->
  exists w0, w = w0 ++ l /\ Matches p w0 caps.
Proof.
  induction p as [|[k|k|k] p IH]; intros w caps H; simpl in H.
  - apply Matches_lits_only in H. destruct H as [-> ->].
    exists []. split; auto. constructor.
  - inversion H as [|k' c p' w1 caps' Hc Hw| |]; subst.
    destruct (IH _ _ Hw) as (w0 & -> & Hw0).
    exists (c :: w0). split; auto. constructor; auto.
  - inversion H as [| |k' u p' w1 caps' Hu Hw|]; subst.
    destruct (IH _ _ Hw) as (w0 & -> & Hw0).
    exists (u ++ w0). rewrite app_assoc. split; auto. constructor; auto.
  - inversion H as [| | |k' u p' w1 caps' Hne Hu Hw]; subst.
    destruct (IH _ _ Hw) as (w0 & -> & Hw0).
    exists (u ++ w0). rewrite app_assoc. split; auto. constructor; auto.
Qed.

Lemma conversion_rule_ends r :
  In r conversion_rules ->
  fst r = unterminated r ++ lits [semi]
  /\ exists q, unterminated r = q ++ lits [rparen].
Proof.
  intros [<-|[<-|[<-|[]]]]; (split; [reflexivity|]).
  - exists (removelast (unterminated get_set_rule)). reflexivity.
  - exists (removelast (unterminated get_rule)). reflexivity.
  - exists (removelast (unterminated post_rule)). reflexivity.
Qed.

(** C8: a match of a conversion rule is a chain, up to the closing
    parenthesis of its final call, with a semicolon right after that
    parenthesis; and a text in which no such chain is followed by a
    semicolon is left unchanged by the rule. *)
Theorem C8_semicolon_required (r : rule) :
  In r conversion_rules ->
  (forall w caps, Matches (fst r) w caps ->
     exists w0, w = w0 ++ [rparen; semi]
                /\ Matches (unterminated r) (w0 ++ [rparen]) caps)
  /\ (forall s,
        (forall pre w post caps, s = pre ++ w ++ post ->
           Matches (unterminated r) w caps ->
           forall post', post <> semi :: post') ->
        re_sub (fst r) (snd r) s = Some s).
Proof.
  intros Hr. destruct (conversion_rule_ends r Hr) as [E (q & Eq)].
  assert (Hin : In r rules) by (right; exact Hr).
  assert (Hcut : forall w caps, Matches (fst r) w caps ->
            exists w1, w = w1 ++ [semi] /\ Matches (unterminated r) w1 caps).
  { intros w caps Hw. rewrite E in Hw.
    apply Matches_app_lits_inv in Hw. exact Hw. }
  split.
  - intros w caps Hw. destruct (Hcut w caps Hw) as (w1 & -> & Hw1).
    pose proof Hw1 as Hw1'. rewrite Eq in Hw1'.
    apply Matches_app_lits_inv in Hw1'. destruct Hw1' as (w0 & -> & _).
    exists w0. rewrite <- app_assoc. split; auto.
  - intros s Hs. rewrite re_sub_rule by assumption. f_equal.
    apply rule_no_occurrence; auto.
    intros (pre & w & post & caps & -> & Hw).
    destruct (Hcut w caps Hw) as (w1 & -> & Hw1).
    apply (Hs pre w1 (semi :: post) caps) with (post' := post); auto.
    rewrite <- app_assoc. reflexivity.
Qed.

Lemma C8_semicolon_required_witness :
  re_sub get_pattern get_template
    (cps "await request(app.fetch as any).get('/bar')" ++ [nl])
  = Some (cps "await request(app.fetch as any).get('/bar')" ++ [nl]).
Proof.
  apply (proj2 (C8_semicolon_required get_rule
                  (or_intror (or_introl eq_refl)))).
  intros pre w post caps E _ post' ->.
  assert (Hin : In semi
                  (cps "await request(app.fetch as any).get('/bar')" ++ [nl])).
  { rewrite E. apply in_or_app. right. apply in_or_app. right. left.
    reflexivity. }
  revert Hin. apply not_in_by_eqb. vm_compute. reflexivity.
Defined.

(** The chains of the three shapes, each without its semicolon, go through
    the whole rewriter unchanged. *)
Remark chains_without_semicolon_kept :
  let s := cps "await request(app.fetch as any).get('/bar')" ++ [nl]
           ++ cps "await request(app.fetch as any).get('/foo').set(h)" ++ [nl]
           ++ cps "await request(app.fetch as any).post('/baz').set(h).send(p)"
           ++ [nl] in
  convert_test_file s = Some s.
Proof. run. Qed.

(** ** Arguments that hold a closing parenthesis *)

(** The words rule 3 matches. *)
Lemma Matches_get_inv w caps :
  Matches get_pattern w caps ->
  exists g, w = cps "await request(app.fetch as any).get(" ++ g
                ++ rparen :: [semi]
            /\ caps = [g] /\ g <> [] /\ ~ In rparen g.
Proof.
  intros H. unfold get_pattern, lit in H.
  apply Matches_lits_inv in H. destruct H as (w1 & -> & H).
  apply Matches_arg_inv in H.
  destruct H as (g & w2 & caps1 & -> & -> & Hg & Hg' & H).
  apply Matches_lits_only in H. destruct H as [-> ->].
  exists g. auto.
Qed.

(** The words rule 4 matches. *)
Lemma Matches_post_inv w caps :
  Matches post_pattern w caps ->
  exists u1 g1 u2 g2 u3 g3,
    w = opener0 ++ rparen :: (u1 ++ cps ".post(" ++ g1)
        ++ rparen :: (u2 ++ cps ".set(" ++ g2)
        ++ rparen :: (u3 ++ cps ".send(" ++ g3) ++ rparen :: [semi]
    /\ caps = [g1; g2; g3]
    /\ ~ In rparen g1 /\ ~ In rparen g2 /\ ~ In rparen g3.
Proof.
  intros H. unfold post_pattern, lit in H.
  apply Matches_lits_inv in H. destruct H as (w1 & -> & H).
  apply Matches_spaces_inv in H. destruct H as (u1 & w2 & -> & Hu1 & H).
  apply Matches_lits_inv in H. destruct H as (w3 & -> & H).
  apply Matches_arg_inv in H.
  destruct H as (g1 & w4 & caps1 & -> & -> & Hg1 & Hg1' & H).
  apply Matches_lits_inv in H. destruct H as (w5 & -> & H).
  apply Matches_spaces_inv in H. destruct H as (u2 & w6 & -> & Hu2 & H).
  apply Matches_lits_inv in H. destruct H as (w7 & -> & H).
  apply Matches_arg_inv in H.
  destruct H as (g2 & w8 & caps2 & -> & -> & Hg2 & Hg2' & H).
  apply Matches_lits_inv in H. destruct H as (w9 & -> & H).
  apply Matches_spaces_inv in H. destruct H as (u3 & w10 & -> & Hu3 & H).
  apply Matches_lits_inv in H. destruct H as (w11 & -> & H).
  apply Matches_arg_inv in H.
  destruct H as (g3 & w12 & caps3 & -> & -> & Hg3 & Hg3' & H).
  apply Matches_lits_only in H. destruct H as [-> ->].
  exists u1, g1, u2, g2, u3, g3. rewrite <- !app_assoc.
  repeat split; auto.
Qed.

(** Equations between texts that differ by bracketing only. *)
Ltac list_eq :=
  repeat (rewrite <- app_assoc || rewrite <- app_comm_cons); reflexivity.

(** What a conversion rule captures are the texts in parentheses of the
    matched chain, each free of closing parentheses. *)
Lemma captures_in_parentheses r w caps :
  In r conversion_rules -> Matches (fst r) w caps ->
  Forall (fun c => in_parentheses c w) caps.
Proof.
  intros [<-|[<-|[<-|[]]]] H; cbn [fst get_set_rule get_rule post_rule] in H.
  - apply Matches_get_set_inv in H.
    destruct H as (u1 & g1 & u2 & g2 & -> & -> & _ & _ & _ & Hg1 & _ & Hg2).
    repeat constructor; auto.
    + exists (opener0 ++ rparen :: u1 ++ cps ".get"),
        (u2 ++ cps ".set(" ++ g2 ++ [rparen; semi]). list_eq.
    + exists (opener0 ++ rparen :: (u1 ++ cps ".get(" ++ g1)
              ++ rparen :: u2 ++ cps ".set"), [semi]. list_eq.
  - apply Matches_get_inv in H. destruct H as (g & -> & -> & _ & Hg).
    repeat constructor; auto.
    exists (cps "await request(app.fetch as any).get"), [semi]. list_eq.
  - apply Matches_post_inv in H.
    destruct H as (u1 & g1 & u2 & g2 & u3 & g3 & -> & -> & Hg1 & Hg2 & Hg3).
    repeat constructor; auto.
    + exists (opener0 ++ rparen :: u1 ++ cps ".post"),
        (u2 ++ cps ".set(" ++ g2 ++ rparen :: u3 ++ cps ".send(" ++ g3
         ++ [rparen; semi]). list_eq.
    + exists (opener0 ++ rparen :: (u1 ++ cps ".post(" ++ g1)
              ++ rparen :: u2 ++ cps ".set"),
        (u3 ++ cps ".send(" ++ g3 ++ [rparen; semi]). list_eq.
    + exists (opener0 ++ rparen :: (u1 ++ cps ".post(" ++ g1)
              ++ rparen :: (u2 ++ cps ".set(" ++ g2)
              ++ rparen :: u3 ++ cps ".send"), [semi]. list_eq.
Qed.

(** A chain whose path argument ['/a);b'] holds a closing parenthesis is
    matched by rule 3 all the same, with the argument cut at that
    parenthesis, and what follows it stays behind the rewritten call. *)
Lemma C9_counterexample :
  match_here get_pattern (get_chain (cps "'/a);b'"))
  = Some ([cps "'/a"], cps "b');")
  /\ convert_test_file (get_chain (cps "'/a);b'"))
     = Some (cps "await app.request('/a, { method: " ++ dq :: cps "GET"
             ++ dq :: cps " });b');")
  /\ convert_test_file (get_chain (cps "'/a);b'"))
     <> Some (get_chain (cps "'/a);b'")).
Proof.
  split; [run|]. split; [run|]. vm_compute. discriminate.
Qed.

(** ** The main block *)

(** C10: when the input cannot be read the run ends with the error of the
    read and the machine is as it was: nothing is written and nothing is
    printed.  The output file or the printed lines change only in a run
    whose read and conversion succeeded, and then the output file holds
    the whole converted text and the one line [Conversion complete!] is
    printed; such a run happens whenever the input is read and the output
    can be written. *)
Theorem C10_read_failure_writes_nothing (w : world) :
  (forall e, read_text w input_path = inl e -> main w = (w, Traceback e))
  /\ (files (fst (main w)) output_path <> files w output_path
      \/ stdout (fst (main w)) <> stdout w ->
      exists content converted,
        read_text w input_path = inr content
        /\ convert_test_file content = Some converted
        /\ files (fst (main w)) output_path = Some converted
        /\ stdout (fst (main w)) = stdout w ++ [cps "Conversion complete!"]
        /\ snd (main w) = Finished)
  /\ (forall content, read_text w input_path = inr content ->
      writable w output_path = true ->
      exists converted,
        convert_test_file content = Some converted
        /\ files (fst (main w)) output_path = Some converted
        /\ stdout (fst (main w)) = stdout w ++ [cps "Conversion complete!"]
        /\ snd (main w) = Finished).
Proof.
  unfold main. split; [|split].
  - intros e H. rewrite H. reflexivity.
  - destruct (read_text w input_path) as [e|content];
      [cbn [fst snd]; tauto|].
    rewrite convert_test_file_eq. unfold write_text.
    destruct (writable w output_path); cbn [fst snd]; [|tauto].
    intros _. do 2 eexists. unfold print. cbn [files stdout].
    rewrite String.eqb_refl. repeat split.
  - intros content H Hw. rewrite H. rewrite convert_test_file_eq.
    unfold write_text. rewrite Hw. cbn [fst snd]. eexists.
    unfold print. cbn [files stdout].
    rewrite String.eqb_refl. repeat split.
Qed.

Lemma C10_read_failure_writes_nothing_witness :
  main no_files = (no_files, Traceback FileNotFoundError)
  /\ exists converted,
       convert_test_file (cps "await request(app.fetch as any).get('/bar');")
       = Some converted
       /\ files (fst (main backup_only)) output_path = Some converted
       /\ stdout (fst (main backup_only))
          = stdout backup_only ++ [cps "Conversion complete!"]
       /\ snd (main backup_only) = Finished.
Proof.
  split.
  - apply (proj1 (C10_read_failure_writes_nothing no_files)). reflexivity.
  - apply (proj2 (proj2 (C10_read_failure_writes_nothing backup_only)));
      reflexivity.
Defined.

(** * Further properties *)

(** ** Closing parentheses and the calls chained to them *)

Lemma chained_step u c rest x T :
  ~ In rparen x -> chained u c rest (x ++ rparen :: T) ->
  T = u ++ dot :: c :: rest \/ chained u c rest T.
Proof.
  intros Hx (y & E). symmetry in E.
  apply split_at_occurrence in E; auto.
  destruct E as [[_ E]|(y' & _ & E)].
  - left. symmetry. exact E.
  - right. exists y'. symmetry. exact E.
Qed.

Lemma chained_none u c rest x : ~ In rparen x -> ~ chained u c rest x.
Proof.
  intros Hx (y & ->). apply Hx. apply in_or_app. right. left. reflexivity.
Qed.

(** No call is chained to a closing parenthesis that a semicolon follows. *)
Lemma chained_closed u c rest x :
  all_in Space u -> ~ In rparen x -> ~ chained u c rest (x ++ [rparen; semi]).
Proof.
  intros Hu Hx H. apply chained_step in H; auto.
  destruct H as [E|H].
  - destruct u as [|d u]; [discriminate|].
    injection E as <- _. inversion Hu; subst. discriminate.
  - revert H. apply chained_none. intros [H|[]]. discriminate.
Qed.

(** The text tells which method is chained, and behind how much white
    space. *)
Lemma chained_call_unique u v c d r r' :
  all_in Space u -> all_in Space v ->
  u ++ dot :: c :: r = v ++ dot :: d :: r' -> u = v /\ c = d /\ r = r'.
Proof.
  intros Hu Hv E.
  apply (spaces_prefix_unique _ _ dot dot) in E; auto.
  destruct E as (-> & _ & E). injection E as -> ->. auto.
Qed.

Lemma all_in_nil k : all_in k [].
Proof. constructor. Qed.

(** What a match of each conversion rule chains to a closing parenthesis:
    rule 2 a [.get(] and a [.set(] with an argument, rule 3 a [.get(] with
    an argument and a semicolon, directly, rule 4 a [.post(]. *)
Lemma occurs_get_set_chained_get s :
  occurs get_set_pattern s ->
  exists u rest, all_in Space u /\ chained u 103 (cps "et(" ++ rest) s.
Proof.
  intros (pre & w & post & caps & -> & Hw).
  apply Matches_get_set_inv in Hw.
  destruct Hw as (u1 & g1 & u2 & g2 & -> & _ & Hu1 & _).
  exists u1. eexists. split; auto.
  exists (pre ++ opener0). list_eq.
Qed.

Lemma occurs_get_set_chained_set s :
  occurs get_set_pattern s ->
  exists u g post, all_in Space u /\ g <> [] /\ ~ In rparen g
    /\ chained u 115 (cps "et(" ++ g ++ rparen :: semi :: post) s.
Proof.
  intros (pre & w & post & caps & -> & Hw).
  apply Matches_get_set_inv in Hw.
  destruct Hw as (u1 & g1 & u2 & g2 & -> & _ & _ & Hu2 & _ & _ & Hne & Hg2).
  exists u2, g2, post. repeat split; auto.
  exists (pre ++ opener0 ++ rparen :: u1 ++ cps ".get(" ++ g1). list_eq.
Qed.

Lemma occurs_get_chained s :
  occurs get_pattern s ->
  exists g post, g <> [] /\ ~ In rparen g
    /\ chained [] 103 (cps "et(" ++ g ++ rparen :: semi :: post) s.
Proof.
  intros (pre & w & post & caps & -> & Hw).
  apply Matches_get_inv in Hw. destruct Hw as (g & -> & _ & Hne & Hg).
  exists g, post. repeat split; auto.
  exists (pre ++ opener0). list_eq.
Qed.

Lemma occurs_post_chained s :
  occurs post_pattern s ->
  exists u rest, all_in Space u /\ chained u 112 (cps "ost(" ++ rest) s.
Proof.
  intros (pre & w & post & caps & -> & Hw).
  unfold post_pattern, lit in Hw.
  apply Matches_lits_inv in Hw. destruct Hw as (w1 & -> & Hw).
  apply Matches_spaces_inv in Hw. destruct Hw as (u1 & w2 & -> & Hu1 & Hw).
  apply Matches_lits_inv in Hw. destruct Hw as (w3 & -> & _).
  exists u1, (w3 ++ post). split; auto.
  exists (pre ++ opener0). list_eq.
Qed.

Lemma occurs_post_chained_send s :
  occurs post_pattern s ->
  exists u g post, all_in Space u /\ ~ In rparen g
    /\ chained u 115 (cps "end(" ++ g ++ rparen :: semi :: post) s.
Proof.
  intros (pre & w & post & caps & -> & Hw).
  unfold post_pattern, lit in Hw.
  apply Matches_lits_inv in Hw. destruct Hw as (w1 & -> & Hw).
  apply Matches_spaces_inv in Hw. destruct Hw as (u1 & w2 & -> & Hu1 & Hw).
  apply Matches_lits_inv in Hw. destruct Hw as (w3 & -> & Hw).
  apply Matches_arg_inv in Hw.
  destruct Hw as (g1 & w4 & caps1 & -> & -> & _ & Hg1 & Hw).
  apply Matches_lits_inv in Hw. destruct Hw as (w5 & -> & Hw).
  apply Matches_spaces_inv in Hw. destruct Hw as (u2 & w6 & -> & Hu2 & Hw).
  apply Matches_lits_inv in Hw. destruct Hw as (w7 & -> & Hw).
  apply Matches_arg_inv in Hw.
  destruct Hw as (g2 & w8 & caps2 & -> & -> & _ & Hg2 & Hw).
  apply Matches_lits_inv in Hw. destruct Hw as (w9 & -> & Hw).
  apply Matches_spaces_inv in Hw. destruct Hw as (u3 & w10 & -> & Hu3 & Hw).
  apply Matches_lits_inv in Hw. destruct Hw as (w11 & -> & Hw).
  apply Matches_arg_inv in Hw.
  destruct Hw as (g3 & w12 & caps3 & -> & -> & _ & Hg3 & Hw).
  apply Matches_lits_only in Hw. destruct Hw as [-> ->].
  exists u3, g3, post. repeat split; auto.
  exists (pre ++ cps "await request(app.fetch as any)" ++ u1 ++ cps ".post("
          ++ g1 ++ rparen :: u2 ++ cps ".set(" ++ g2). list_eq.
Qed.

(** A text without chained calls holds no match of a conversion rule. *)
Lemma no_chained_no_occurrence r s :
  In r conversion_rules ->
  (forall u c rest, all_in Space u -> ~ chained u c rest s) ->
  ~ occurs (fst r) s.
Proof.
  intros [<-|[<-|[<-|[]]]] H Ho; cbn [fst get_set_rule get_rule post_rule] in Ho.
  - apply occurs_get_set_chained_get in Ho.
    destruct Ho as (u & rest & Hu & Ho). exact (H _ _ _ Hu Ho).
  - apply occurs_get_chained in Ho.
    destruct Ho as (g & post & _ & _ & Ho). exact (H _ _ _ (all_in_nil _) Ho).
  - apply occurs_post_chained in Ho.
    destruct Ho as (u & rest & Hu & Ho). exact (H _ _ _ Hu Ho).
Qed.

(** ** The calls hold no chain *)

(** A text put together from literals and from parts known to hold no
    closing parenthesis holds none. *)
Ltac no_rparen :=
  apply not_in_by_eqb;
  repeat (rewrite forallb_app || cbn [forallb]);
  rewrite ?andb_true_iff; repeat split; (reflexivity || assumption).

Lemma arg_ok_no_rparen u :
  arg_ok u = true -> forallb (fun c => negb (c =? rparen)) u = true.
Proof.
  unfold arg_ok. rewrite andb_true_iff. tauto.
Qed.

Lemma spaces_no_rparen u :
  forallb is_space u = true -> forallb (fun c => negb (c =? rparen)) u = true.
Proof.
  rewrite !forallb_forall. intros H c Hc. apply H in Hc.
  destruct (N.eqb_spec c rparen) as [->|]; [discriminate|reflexivity].
Qed.

Lemma get_set_call_no_chain a u c rest :
  chain_ok a = true -> all_in Space u -> ~ chained u c rest (get_set_call a).
Proof.
  unfold chain_ok. rewrite !andb_true_iff. intros [[[_ Hp] _] Hh] Hu.
  apply arg_ok_no_rparen in Hp, Hh.
  replace (get_set_call a) with
    ((cps "await app.request(" ++ path a ++ cps ", { method: " ++ dq
      :: cps "GET" ++ dq :: cps ", headers: " ++ headers a ++ cps " }")
     ++ [rparen; semi]) by (unfold get_set_call; list_eq).
  apply chained_closed; auto. no_rparen.
Qed.

Lemma get_call_no_chain x u c rest :
  arg_ok x = true -> all_in Space u -> ~ chained u c rest (get_call x).
Proof.
  intros Hx Hu. apply arg_ok_no_rparen in Hx.
  replace (get_call x) with
    ((cps "await app.request(" ++ x ++ cps ", { method: " ++ dq
      :: cps "GET" ++ dq :: cps " }") ++ [rparen; semi])
    by (unfold get_call; list_eq).
  apply chained_closed; auto. no_rparen.
Qed.

Lemma re_sub_some p t s out : re_sub p t s = Some out -> sub_all p t s = out.
Proof.
  unfold re_sub. destruct (template_ok p t); congruence.
Qed.

Lemma no_import_line_scan s :
  ~ contains import_line s -> sub_all import_pattern import_template s = s.
Proof.
  intros H. apply re_sub_some. apply import_step_absent. exact H.
Qed.

(** Rules 3 and 4 leave a text without chained calls as it is. *)
Lemma later_rules_keep s :
  (forall u c rest, all_in Space u -> ~ chained u c rest s) ->
  sub_all post_pattern post_template (sub_all get_pattern get_template s) = s.
Proof.
  intros H.
  rewrite (rule_no_occurrence get_rule), (rule_no_occurrence post_rule);
    auto; try (simpl; tauto);
    apply no_chained_no_occurrence; auto; simpl; tauto.
Qed.

(** X1: a GET chain with headers is converted to its call whatever white
    space stands in front of [.get] and [.set] and whatever the two
    arguments are, as long as they are not empty and hold no closing
    parenthesis (and the import line is not inside the chain). *)
Theorem X1_get_set_chain_converted (a : chain_args) :
  chain_ok a = true ->
  ~ contains import_line (get_set_chain a) ->
  convert_test_file (get_set_chain a) = Some (get_set_call a).
Proof.
  intros Ha Himp. rewrite convert_test_file_eq. f_equal.
  rewrite no_import_line_scan by assumption.
  rewrite (re_sub_some _ _ _ _ (get_set_chain_rewritten a Ha)).
  apply later_rules_keep. intros u c rest Hu.
  apply get_set_call_no_chain; auto.
Qed.

Lemma X1_get_set_chain_converted_witness :
  convert_test_file (get_set_chain sample_a2) = Some (get_set_call sample_a2).
Proof.
  apply X1_get_set_chain_converted; [reflexivity|].
  apply no_import_line. run.
Defined.

(** ** Single chains through the whole rewriter *)

Lemma get_chain_match x rest :
  arg_ok x = true ->
  match_here get_pattern (get_chain x ++ rest) = Some ([x], rest).
Proof.
  intros Hx. apply arg_ok_spec in Hx. destruct Hx as [Hne Hx].
  unfold get_chain. rewrite <- !app_assoc.
  change get_pattern with
    (lits (cps "await request(app.fetch as any).get(") ++ arg
     ++ lits (rparen :: [semi]) ++ []).
  rewrite match_here_lits.
  apply (match_here_arg_lits x [semi] [] rest); auto.
Qed.

Lemma get_chain_scan x :
  arg_ok x = true -> sub_all get_pattern get_template (get_chain x) = get_call x.
Proof.
  intros Hx. rewrite <- (app_nil_r (get_chain x)).
  rewrite (sub_all_some _ _ (rules_headed get_rule
    (or_intror (or_intror (or_introl eq_refl)))) _ _ _ (get_chain_match x [] Hx)).
  rewrite sub_all_nil by (eexists _, _; reflexivity).
  rewrite app_nil_r. reflexivity.
Qed.

Lemma get_chain_no_set x u rest :
  arg_ok x = true -> all_in Space u -> ~ chained u 115 rest (get_chain x).
Proof.
  intros Hx Hu H. apply arg_ok_no_rparen in Hx.
  replace (get_chain x) with
    (opener0 ++ rparen :: (cps ".get(" ++ x) ++ [rparen; semi]) in H
    by (unfold get_chain; list_eq).
  apply chained_step in H; [|exact rparen_not_in_opener0].
  destruct H as [E|H].
  - rewrite <- app_assoc in E.
    apply (chained_call_unique [] u) in E; auto using all_in_nil.
    destruct E as (_ & E & _). discriminate.
  - revert H. apply chained_closed; auto. no_rparen.
Qed.

Lemma post_chain_no_get a u rest :
  post_ok a = true -> all_in Space u -> ~ chained u 103 rest (post_chain a).
Proof.
  unfold post_ok. rewrite !andb_true_iff.
  intros [[[[[Hw1 Hp] Hw2] Hh] Hw3] Hd] Hu H.
  pose proof (spaces_spec _ Hw1) as Hs1. pose proof (spaces_spec _ Hw2) as Hs2.
  pose proof (spaces_spec _ Hw3) as Hs3.
  apply spaces_no_rparen in Hw1, Hw2, Hw3.
  apply arg_ok_no_rparen in Hp, Hh, Hd.
  replace (post_chain a) with
    (opener0 ++ rparen :: (p_before_post a ++ cps ".post(" ++ p_path a)
     ++ rparen :: (p_before_set a ++ cps ".set(" ++ p_headers a)
     ++ rparen :: (p_before_send a ++ cps ".send(" ++ p_payload a)
     ++ [rparen; semi]) in H by (unfold post_chain; list_eq).
  apply chained_step in H; [|exact rparen_not_in_opener0].
  destruct H as [E|H].
  { rewrite <- !app_assoc in E.
    apply (chained_call_unique _ u) in E; auto.
    destruct E as (_ & E & _). discriminate. }
  apply chained_step in H; [|no_rparen].
  destruct H as [E|H].
  { rewrite <- !app_assoc in E.
    apply (chained_call_unique _ u) in E; auto.
    destruct E as (_ & E & _). discriminate. }
  apply chained_step in H; [|no_rparen].
  destruct H as [E|H].
  { rewrite <- !app_assoc in E.
    apply (chained_call_unique _ u) in E; auto.
    destruct E as (_ & E & _). discriminate. }
  revert H. apply chained_closed; auto. no_rparen.
Qed.

(** X2: a POST chain with headers and body is converted to its call
    whatever white space stands in front of [.post], [.set] and [.send]
    and whatever the three arguments are, as long as they are not empty
    and hold no closing parenthesis, and the import line is not inside
    the chain. *)
Theorem X2_post_chain_converted (a : post_args) :
  post_ok a = true ->
  ~ contains import_line (post_chain a) ->
  convert_test_file (post_chain a) = Some (post_call a).
Proof.
  intros Ha Himp. rewrite convert_test_file_eq. f_equal.
  rewrite no_import_line_scan by assumption.
  rewrite (rule_no_occurrence get_set_rule), (rule_no_occurrence get_rule);
    try (simpl; tauto).
  - apply re_sub_some. apply post_chain_rewritten. exact Ha.
  - intros Ho. apply occurs_get_chained in Ho.
    destruct Ho as (g & post & _ & _ & Ho). revert Ho.
    apply post_chain_no_get; auto using all_in_nil.
  - intros Ho. apply occurs_get_set_chained_get in Ho.
    destruct Ho as (u & rest & Hu & Ho). revert Ho.
    apply post_chain_no_get; auto.
Qed.

Lemma X2_post_chain_converted_witness :
  convert_test_file (post_chain sample_post) = Some (post_call sample_post).
Proof.
  apply X2_post_chain_converted; [reflexivity|].
  apply no_import_line. run.
Defined.

(** X3: a GET chain without headers, written without white space, is
    converted to its call whatever its argument is, as long as it is not
    empty and holds no closing parenthesis, and the import line is not
    inside the chain. *)
Theorem X3_get_chain_converted (x : doc) :
  arg_ok x = true ->
  ~ contains import_line (get_chain x) ->
  convert_test_file (get_chain x) = Some (get_call x).
Proof.
  intros Hx Himp. rewrite convert_test_file_eq. f_equal.
  rewrite no_import_line_scan by assumption.
  rewrite (rule_no_occurrence get_set_rule); try (simpl; tauto).
  - rewrite get_chain_scan by assumption.
    apply (rule_no_occurrence post_rule); try (simpl; tauto).
    apply no_chained_no_occurrence; [simpl; tauto|].
    intros u c rest Hu. apply get_call_no_chain; auto.
  - intros Ho. apply occurs_get_set_chained_set in Ho.
    destruct Ho as (u & g & rest & Hu & _ & _ & Ho). revert Ho.
    apply get_chain_no_set; auto.
Qed.

Lemma X3_get_chain_converted_witness :
  convert_test_file (get_chain (cps "`/bar/${id}`"))
  = Some (get_call (cps "`/bar/${id}`")).
Proof.
  apply X3_get_chain_converted; [reflexivity|].
  apply no_import_line. run.
Defined.

(** ** Chains the patterns do not take *)

Lemma rules_keep s :
  ~ contains import_line s ->
  (forall r, In r conversion_rules -> ~ occurs (fst r) s) ->
  convert_test_file s = Some s.
Proof.
  intros Himp H. rewrite convert_test_file_eq. f_equal.
  rewrite no_import_line_scan by assumption.
  rewrite (rule_no_occurrence get_set_rule), (rule_no_occurrence get_rule),
    (rule_no_occurrence post_rule); try apply H; simpl; tauto.
Qed.

(** X5: a GET chain without headers that has any white space between
    [await request(app.fetch as any)] and [.get] comes back unchanged:
    rule 3 has no [\s*], and rules 2 and 4 find no [.set] and no [.post].
    The argument is not empty and holds no closing parenthesis, and the
    import line is not inside the chain. *)
Theorem X5_get_chain_spaced_kept (ws x : doc) :
  ws <> [] -> forallb is_space ws = true -> arg_ok x = true ->
  ~ contains import_line (get_chain_spaced ws x) ->
  convert_test_file (get_chain_spaced ws x) = Some (get_chain_spaced ws x).
Proof.
  intros Hne Hws Hx Himp. apply rules_keep; auto.
  pose proof (spaces_spec _ Hws) as Hs.
  apply spaces_no_rparen in Hws. apply arg_ok_no_rparen in Hx.
  assert (E : get_chain_spaced ws x
              = opener0 ++ rparen :: (ws ++ cps ".get(" ++ x) ++ [rparen; semi])
    by (unfold get_chain_spaced; list_eq).
  assert (Hno : forall u c rest, all_in Space u ->
            chained u c rest (get_chain_spaced ws x) ->
            u = ws /\ c = 103).
  { intros u c rest Hu H. rewrite E in H.
    apply chained_step in H; [|exact rparen_not_in_opener0].
    destruct H as [H|H].
    - rewrite <- !app_assoc in H.
      apply (chained_call_unique _ u) in H; auto.
      destruct H as (-> & <- & _). auto.
    - exfalso. revert H. apply chained_closed; auto. no_rparen. }
  intros r [<-|[<-|[<-|[]]]] Ho;
    cbn [fst get_set_rule get_rule post_rule] in Ho.
  - apply occurs_get_set_chained_set in Ho.
    destruct Ho as (u & g & rest & Hu & _ & _ & Ho).
    destruct (Hno _ _ _ Hu Ho) as [_ Hc]. discriminate.
  - apply occurs_get_chained in Ho. destruct Ho as (g & post & _ & _ & Ho).
    destruct (Hno _ _ _ (all_in_nil _) Ho) as [Hu _]. congruence.
  - apply occurs_post_chained in Ho. destruct Ho as (u & rest & Hu & Ho).
    destruct (Hno _ _ _ Hu Ho) as [_ Hc]. discriminate.
Qed.

Lemma X5_get_chain_spaced_kept_witness :
  convert_test_file (get_chain_spaced (nl :: cps "  ") (cps "'/bar'"))
  = Some (get_chain_spaced (nl :: cps "  ") (cps "'/bar'")).
Proof.
  apply X5_get_chain_spaced_kept; [discriminate|reflexivity|reflexivity|].
  apply no_import_line. run.
Defined.

(** X9: a GET chain whose [.set()] has no argument comes back unchanged:
    the group [([^\)]+)] needs a character, and no other rule takes the
    chain.  In front of [.get] and [.set] stands any white space, the path
    argument is not empty and holds no closing parenthesis, and the import
    line is not inside the chain. *)
Theorem X9_empty_headers_kept (ws1 x ws2 : doc) :
  forallb is_space ws1 = true -> arg_ok x = true ->
  forallb is_space ws2 = true ->
  ~ contains import_line (get_set_chain_no_headers ws1 x ws2) ->
  convert_test_file (get_set_chain_no_headers ws1 x ws2)
  = Some (get_set_chain_no_headers ws1 x ws2).
Proof.
  intros Hw1 Hx Hw2 Himp. apply rules_keep; auto.
  pose proof (spaces_spec _ Hw1) as Hs1. pose proof (spaces_spec _ Hw2) as Hs2.
  apply spaces_no_rparen in Hw1, Hw2. apply arg_ok_no_rparen in Hx.
  assert (E : get_set_chain_no_headers ws1 x ws2
              = opener0 ++ rparen :: (ws1 ++ cps ".get(" ++ x)
                ++ rparen :: (ws2 ++ cps ".set(") ++ [rparen; semi])
    by (unfold get_set_chain_no_headers; list_eq).
  assert (Hno : forall u c rest, all_in Space u ->
            chained u c rest (get_set_chain_no_headers ws1 x ws2) ->
            (u = ws1 /\ c = 103
             /\ rest = cps "et(" ++ x ++ rparen :: ws2 ++ cps ".set();")
            \/ (c = 115 /\ rest = cps "et();")).
  { intros u c rest Hu H. rewrite E in H.
    apply chained_step in H; [|exact rparen_not_in_opener0].
    destruct H as [H|H].
    { left. rewrite <- !app_assoc in H.
      apply (chained_call_unique _ u) in H; auto.
      destruct H as (-> & <- & <-). repeat split; list_eq. }
    apply chained_step in H; [|no_rparen].
    destruct H as [H|H].
    { right. rewrite <- !app_assoc in H.
      apply (chained_call_unique _ u) in H; auto.
      destruct H as (_ & <- & <-). auto. }
    exfalso. revert H. apply chained_closed; auto. no_rparen. }
  intros r [<-|[<-|[<-|[]]]] Ho;
    cbn [fst get_set_rule get_rule post_rule] in Ho.
  - apply occurs_get_set_chained_set in Ho.
    destruct Ho as (u & g & rest & Hu & Hg & Hg' & Ho).
    destruct (Hno _ _ _ Hu Ho) as [(_ & Hc & _)|[_ Hr]]; [discriminate|].
    apply (app_inv_head (cps "et(")) in Hr.
    destruct g as [|c g]; [congruence|]. injection Hr as -> _.
    apply Hg'. left. reflexivity.
  - apply occurs_get_chained in Ho.
    destruct Ho as (g & post & Hg & Hg' & Ho).
    destruct (Hno _ _ _ (all_in_nil _) Ho) as [(Hu & _ & Hr)|[Hc _]];
      [|discriminate].
    apply (app_inv_head (cps "et(")) in Hr.
    apply split_at_first in Hr; auto.
    + destruct Hr as [_ Hr]. subst ws1. clear Hs1.
      destruct ws2 as [|d ws2]; [discriminate|].
      injection Hr as <- _. inversion Hs2; subst. discriminate.
    + apply not_in_by_eqb. exact Hx.
  - apply occurs_post_chained in Ho. destruct Ho as (u & rest & Hu & Ho).
    destruct (Hno _ _ _ Hu Ho) as [(_ & Hc & _)|[Hc _]]; discriminate.
Qed.

Lemma X9_empty_headers_kept_witness :
  convert_test_file (get_set_chain_no_headers [] (cps "'/a'") [nl])
  = Some (get_set_chain_no_headers [] (cps "'/a'") [nl]).
Proof.
  apply X9_empty_headers_kept; try reflexivity.
  apply no_import_line. run.
Defined.

(** ** Text without the idiom *)

Lemma occurs_contains_opener r s :
  In r conversion_rules -> occurs (fst r) s -> contains opener s.
Proof.
  intros [<-|[<-|[<-|[]]]] (pre & w & post & caps & -> & Hw);
    cbn [fst get_set_rule get_rule post_rule] in Hw.
  - apply Matches_get_set_inv in Hw.
    destruct Hw as (u1 & g1 & u2 & g2 & -> & _).
    exists pre. eexists. unfold opener. list_eq.
  - apply Matches_get_inv in Hw. destruct Hw as (g & -> & _).
    exists pre. eexists. unfold opener. list_eq.
  - apply Matches_post_inv in Hw.
    destruct Hw as (u1 & g1 & u2 & g2 & u3 & g3 & -> & _).
    exists pre. eexists. unfold opener. list_eq.
Qed.

Lemma no_opener s : occursb (lits opener) s = false -> ~ contains opener s.
Proof.
  intros H. apply occursb_false in H. rewrite occurs_lits in H. exact H.
Qed.

(** X4: a text that holds neither [await request(app.fetch as any)] nor
    the import line comes back unchanged. *)
Theorem X4_text_without_idiom_kept (s : doc) :
  ~ contains opener s -> ~ contains import_line s ->
  convert_test_file s = Some s.
Proof.
  intros Hop Himp. apply rules_keep; auto.
  intros r Hr Ho. apply Hop. eapply occurs_contains_opener; eauto.
Qed.

Lemma X4_text_without_idiom_kept_witness :
  convert_test_file (cps "const app = new Hono();" ++ nl :: cps "app.get(x);")
  = Some (cps "const app = new Hono();" ++ nl :: cps "app.get(x);").
Proof.
  apply X4_text_without_idiom_kept.
  - apply no_opener. run.
  - apply no_import_line. run.
Defined.

(** ** Any number of chains *)

Lemma chains_scan l last :
  Forall (fun ta => ~ occurs get_set_pattern (fst ta)
                    /\ chain_ok (snd ta) = true) l ->
  ~ occurs get_set_pattern last ->
  sub_all get_set_pattern get_set_template (chains_doc l last)
  = calls_doc l last.
Proof.
  intros Hl Hlast.
  induction Hl as [|[t a] l [Ht Ha] _ IH]; cbn [chains_doc calls_doc].
  - apply (rule_no_occurrence get_set_rule); auto. simpl; tauto.
  - cbn [fst snd] in Ht, Ha. rewrite get_set_step by assumption.
    rewrite IH. reflexivity.
Qed.

(** X6: a document of any number of GET chains with headers comes out
    with every chain replaced by its call and the text between the chains
    in place, when no rule matches in that text during the run. *)
Theorem X6_every_chain_converted (l : list (doc * chain_args)) (last : doc) :
  Forall (fun ta => ~ occurs get_set_pattern (fst ta)
                    /\ chain_ok (snd ta) = true) l ->
  ~ occurs get_set_pattern last ->
  ~ contains import_line (chains_doc l last) ->
  ~ occurs get_pattern (calls_doc l last) ->
  ~ occurs post_pattern (calls_doc l last) ->
  convert_test_file (chains_doc l last) = Some (calls_doc l last).
Proof.
  intros Hl Hlast Himp Hget Hpost. rewrite convert_test_file_eq. f_equal.
  rewrite no_import_line_scan by assumption.
  rewrite chains_scan by assumption.
  rewrite (rule_no_occurrence get_rule), (rule_no_occurrence post_rule);
    simpl; auto; tauto.
Qed.

Lemma X6_every_chain_converted_witness :
  convert_test_file (chains_doc sample_chains sample_t3)
  = Some (calls_doc sample_chains sample_t3).
Proof.
  apply X6_every_chain_converted.
  - repeat constructor; no_occurrence.
  - no_occurrence.
  - apply no_import_line. run.
  - no_occurrence.
  - no_occurrence.
Defined.

(** ** The import line and the other rules *)

(** X10: the import line is dropped before the other rules run: a text
    with one import line is converted to what the text without that line
    is converted to. *)
Theorem X10_import_line_dropped_first (pre body : doc) :
  ~ contains import_line pre -> ~ contains import_line body ->
  ~ contains import_line (pre ++ body) ->
  convert_test_file (pre ++ import_line ++ body)
  = convert_test_file (pre ++ body).
Proof.
  intros Hpre Hbody Hjoin. rewrite !convert_test_file_eq.
  rewrite (no_import_line_scan (pre ++ body)) by assumption.
  rewrite (re_sub_some import_pattern import_template
             (pre ++ import_line ++ body) (pre ++ body)); [reflexivity|].
  rewrite import_step_next by assumption.
  rewrite import_step_absent by assumption. reflexivity.
Qed.

Lemma X10_import_line_dropped_first_witness :
  convert_test_file
    ((cps "import { app } from '@/index';" ++ [nl]) ++ import_line
     ++ get_set_chain sample_a1)
  = convert_test_file
      ((cps "import { app } from '@/index';" ++ [nl])
       ++ get_set_chain sample_a1).
Proof.
  apply X10_import_line_dropped_first; apply no_import_line; run.
Defined.

(** ** The files of a run *)







(** ** Chains of any calls *)

Lemma call_ok_spec k :
  call_ok k = true ->
  all_in Space (c_ws k) /\ ~ In lparen (c_name k)
  /\ ~ In rparen (c_ws k ++ dot :: c_name k ++ lparen :: c_arg k).
Proof.
  unfold call_ok. rewrite !andb_true_iff. intros [[Hw Hn] Ha].
  split; [apply spaces_spec; exact Hw|]. split.
  - rewrite forallb_forall in Hn. intros Hin. apply Hn in Hin.
    rewrite N.eqb_refl in Hin. discriminate.
  - apply spaces_no_rparen in Hw.
    assert (Hn' : forallb (fun c => negb (c =? rparen)) (c_name k) = true).
    { rewrite forallb_forall in *. intros c Hc. apply Hn in Hc.
      apply andb_true_iff in Hc. tauto. }
    no_rparen.
Qed.

(** The call chained to a closing parenthesis of a chain is one of the
    calls of the chain, and the text behind it is the rest of the chain. *)
Lemma chained_in_calls cs : forall x u c rest,
  ~ In rparen x -> forallb call_ok cs = true -> all_in Space u ->
  chained u c rest (x ++ rparen :: flat_map render_call cs ++ [semi]) ->
  exists cs1 k cs2,
    cs = cs1 ++ k :: cs2 /\ u = c_ws k
    /\ c :: rest = c_name k ++ lparen :: c_arg k
                   ++ rparen :: flat_map render_call cs2 ++ [semi].
Proof.
  induction cs as [|k cs IH]; intros x u c rest Hx Hok Hu H.
  - exfalso. revert H. apply chained_closed; auto.
  - cbn [forallb] in Hok. apply andb_true_iff in Hok. destruct Hok as [Hk Hok].
    destruct (call_ok_spec k Hk) as (Hws & _ & Hfree).
    cbn [flat_map] in H. unfold render_call at 1 in H.
    apply chained_step in H; auto. destruct H as [E|H].
    + repeat (rewrite <- app_assoc in E || rewrite <- app_comm_cons in E).
      apply (spaces_prefix_unique _ _ dot dot) in E; auto.
      destruct E as (E1 & _ & E2).
      exists [], k, cs. repeat split; auto.
    + match type of H with
      | chained _ _ _ ?T =>
          replace T with ((c_ws k ++ dot :: c_name k ++ lparen :: c_arg k)
                          ++ rparen :: flat_map render_call cs ++ [semi]) in H
            by list_eq
      end.
      apply IH in H; auto.
      destruct H as (cs1 & k' & cs2 & -> & E1 & E2).
      exists (k :: cs1), k', cs2. auto.
Qed.

Lemma call_chain_unfold cs :
  call_chain cs = opener0 ++ rparen :: flat_map render_call cs ++ [semi].
Proof. unfold call_chain. list_eq. Qed.

(** A call of the chain is named as the chained call is. *)
Lemma chained_call_named cs u c rest name tail :
  forallb call_ok cs = true -> all_in Space u -> ~ In lparen name ->
  chained u c rest (call_chain cs) ->
  c :: rest = name ++ lparen :: tail ->
  exists cs1 k cs2,
    cs = cs1 ++ k :: cs2 /\ c_ws k = u /\ c_name k = name
    /\ tail = c_arg k ++ rparen :: flat_map render_call cs2 ++ [semi].
Proof.
  intros Hok Hu Hname H E. rewrite call_chain_unfold in H.
  apply chained_in_calls in H; auto using rparen_not_in_opener0.
  destruct H as (cs1 & k & cs2 & Ecs & Ews & Ek).
  exists cs1, k, cs2. rewrite Ek in E.
  assert (Hk : call_ok k = true).
  { rewrite forallb_forall in Hok. apply Hok. rewrite Ecs.
    apply in_or_app. right. left. reflexivity. }
  destruct (call_ok_spec k Hk) as (_ & Hn & _).
  apply split_at_first in E; auto. destruct E as [-> <-]. auto.
Qed.

(** When a semicolon follows the chained call it is the last call of the
    chain. *)
Lemma chained_call_last cs u c rest name g post :
  forallb call_ok cs = true -> all_in Space u -> ~ In lparen name ->
  ~ In rparen g ->
  chained u c rest (call_chain cs) ->
  c :: rest = name ++ lparen :: g ++ rparen :: semi :: post ->
  exists cs1 k, cs = cs1 ++ [k] /\ c_ws k = u /\ c_name k = name /\ c_arg k = g.
Proof.
  intros Hok Hu Hname Hg H E.
  destruct (chained_call_named _ _ _ _ _ _ Hok Hu Hname H E)
    as (cs1 & k & cs2 & -> & Ews & En & Et).
  assert (Hok2 : call_ok k = true /\ forallb call_ok cs2 = true).
  { rewrite forallb_app in Hok. apply andb_true_iff in Hok.
    destruct Hok as [_ Hok]. cbn [forallb] in Hok.
    apply andb_true_iff in Hok. exact Hok. }
  destruct Hok2 as [Hk Hok2].
  assert (Ha : ~ In rparen (c_arg k)).
  { unfold call_ok in Hk. rewrite !andb_true_iff in Hk.
    apply not_in_by_eqb. tauto. }
  apply split_at_first in Et; auto. destruct Et as [Eg Et].
  exists cs1, k. repeat split; auto.
  destruct cs2 as [|k2 cs2]; auto. exfalso.
  cbn [forallb] in Hok2. apply andb_true_iff in Hok2.
  destruct (call_ok_spec k2 (proj1 Hok2)) as (Hws & _).
  cbn [flat_map] in Et. unfold render_call at 1 in Et.
  destruct (c_ws k2) as [|d ws]; [discriminate|].
  cbn [app] in Et. injection Et as <- _. inversion Hws; subst. discriminate.
Qed.

Ltac no_lparen := apply not_in_by_eqb; reflexivity.

(** X11: a chain of calls none of which is named [get] or [post], such as
    a PUT, DELETE or PATCH chain, comes back unchanged.  Each call has
    white space or nothing in front of its dot, a name without parentheses
    and an argument without closing parenthesis, and the import line is
    not inside the chain. *)
Theorem X11_other_methods_kept (cs : list call) :
  forallb call_ok cs = true ->
  (forall k, In k cs -> c_name k <> cps "get" /\ c_name k <> cps "post") ->
  ~ contains import_line (call_chain cs) ->
  convert_test_file (call_chain cs) = Some (call_chain cs).
Proof.
  intros Hok Hnames Himp. apply rules_keep; auto.
  assert (Hno : forall u c rest name tail, all_in Space u ->
            ~ In lparen name -> chained u c rest (call_chain cs) ->
            c :: rest = name ++ lparen :: tail ->
            exists k, In k cs /\ c_name k = name).
  { intros u c rest name tail Hu Hn H E.
    destruct (chained_call_named _ _ _ _ _ _ Hok Hu Hn H E)
      as (cs1 & k & cs2 & -> & _ & En & _).
    exists k. split; auto. apply in_or_app. right. left. reflexivity. }
  intros r [<-|[<-|[<-|[]]]] Ho;
    cbn [fst get_set_rule get_rule post_rule] in Ho.
  - apply occurs_get_set_chained_get in Ho.
    destruct Ho as (u & rest & Hu & Ho).
    destruct (Hno u 103 (cps "et(" ++ rest) (cps "get") rest Hu)
      as (k & Hk & En);
      [no_lparen|exact Ho|reflexivity|].
    destruct (Hnames k Hk). contradiction.
  - apply occurs_get_chained in Ho. destruct Ho as (g & post & _ & _ & Ho).
    destruct (Hno [] 103 (cps "et(" ++ g ++ rparen :: semi :: post)
                (cps "get") (g ++ rparen :: semi :: post) (all_in_nil _))
      as (k & Hk & En);
      [no_lparen|exact Ho|reflexivity|].
    destruct (Hnames k Hk). contradiction.
  - apply occurs_post_chained in Ho. destruct Ho as (u & rest & Hu & Ho).
    destruct (Hno u 112 (cps "ost(" ++ rest) (cps "post") rest Hu)
      as (k & Hk & En);
      [no_lparen|exact Ho|reflexivity|].
    destruct (Hnames k Hk). contradiction.
Qed.

Lemma X11_other_methods_kept_witness :
  convert_test_file (call_chain sample_put) = Some (call_chain sample_put).
Proof.
  apply X11_other_methods_kept; [reflexivity| |apply no_import_line; run].
  intros k [<-|[<-|[<-|[]]]]; split; discriminate.
Defined.

(** X12: a chain of calls whose last call is not named [get], [set] or
    [send], such as a chain that ends in [.expect(200)], comes back
    unchanged, whatever the names of the calls before the last.  Each
    call, the last among them, has white space or nothing in front of its
    dot, a name without parentheses and an argument without closing
    parenthesis, and the import line is not inside the chain. *)
Theorem X12_other_last_call_kept (cs : list call) (k : call) :
  forallb call_ok (cs ++ [k]) = true ->
  c_name k <> cps "get" -> c_name k <> cps "set" -> c_name k <> cps "send" ->
  ~ contains import_line (call_chain (cs ++ [k])) ->
  convert_test_file (call_chain (cs ++ [k])) = Some (call_chain (cs ++ [k])).
Proof.
  intros Hok Hget Hset Hsend Himp. apply rules_keep; auto.
  assert (Hno : forall u c rest name g post, all_in Space u ->
            ~ In lparen name -> ~ In rparen g ->
            chained u c rest (call_chain (cs ++ [k])) ->
            c :: rest = name ++ lparen :: g ++ rparen :: semi :: post ->
            c_name k = name).
  { intros u c rest name g post Hu Hn Hg H E.
    destruct (chained_call_last _ _ _ _ _ _ _ Hok Hu Hn Hg H E)
      as (cs1 & k' & Ecs & _ & En & _).
    apply app_inj_tail in Ecs. destruct Ecs as [_ ->]. exact En. }
  intros r [<-|[<-|[<-|[]]]] Ho;
    cbn [fst get_set_rule get_rule post_rule] in Ho.
  - apply occurs_get_set_chained_set in Ho.
    destruct Ho as (u & g & post & Hu & _ & Hg & Ho).
    apply Hset.
    apply (Hno u 115 (cps "et(" ++ g ++ rparen :: semi :: post)
             (cps "set") g post Hu); auto. no_lparen.
  - apply occurs_get_chained in Ho. destruct Ho as (g & post & _ & Hg & Ho).
    apply Hget.
    apply (Hno [] 103 (cps "et(" ++ g ++ rparen :: semi :: post)
             (cps "get") g post (all_in_nil _)); auto. no_lparen.
  - apply occurs_post_chained_send in Ho.
    destruct Ho as (u & g & post & Hu & Hg & Ho).
    apply Hsend.
    apply (Hno u 115 (cps "end(" ++ g ++ rparen :: semi :: post)
             (cps "send") g post Hu); auto. no_lparen.
Qed.

Lemma X12_other_last_call_kept_witness :
  convert_test_file (call_chain (sample_get_set ++ [sample_expect]))
  = Some (call_chain (sample_get_set ++ [sample_expect])).
Proof.
  apply X12_other_last_call_kept;
    [reflexivity|discriminate|discriminate|discriminate|].
  apply no_import_line. run.
Defined.

(** * Arguments that hold a closing parenthesis, through the rewriter *)

(** ** The chains a rule converts *)

Lemma spaces_bool u : all_in Space u -> forallb is_space u = true.
Proof.
  unfold all_in. rewrite forallb_forall, Forall_forall. auto.
Qed.

Lemma arg_ok_intro g : g <> [] -> ~ In rparen g -> arg_ok g = true.
Proof.
  intros Hne Hg. unfold arg_ok. apply andb_true_iff. split.
  - destruct g; [congruence|reflexivity].
  - apply forallb_forall. intros c Hc.
    destruct (N.eqb_spec c rparen) as [->|]; [tauto|reflexivity].
Qed.

(** The words rule 4 matches, with all that the pattern asks of them. *)
Lemma Matches_post_chain w caps :
  Matches post_pattern w caps ->
  exists a, post_ok a = true /\ w = post_chain a
            /\ caps = [p_path a; p_headers a; p_payload a].
Proof.
  intros H. unfold post_pattern, lit in H.
  apply Matches_lits_inv in H. destruct H as (w1 & -> & H).
  apply Matches_spaces_inv in H. destruct H as (u1 & w2 & -> & Hu1 & H).
  apply Matches_lits_inv in H. destruct H as (w3 & -> & H).
  apply Matches_arg_inv in H.
  destruct H as (g1 & w4 & caps1 & -> & -> & Hg1 & Hg1' & H).
  apply Matches_lits_inv in H. destruct H as (w5 & -> & H).
  apply Matches_spaces_inv in H. destruct H as (u2 & w6 & -> & Hu2 & H).
  apply Matches_lits_inv in H. destruct H as (w7 & -> & H).
  apply Matches_arg_inv in H.
  destruct H as (g2 & w8 & caps2 & -> & -> & Hg2 & Hg2' & H).
  apply Matches_lits_inv in H. destruct H as (w9 & -> & H).
  apply Matches_spaces_inv in H. destruct H as (u3 & w10 & -> & Hu3 & H).
  apply Matches_lits_inv in H. destruct H as (w11 & -> & H).
  apply Matches_arg_inv in H.
  destruct H as (g3 & w12 & caps3 & -> & -> & Hg3 & Hg3' & H).
  apply Matches_lits_only in H. destruct H as [-> ->].
  exists {| p_before_post := u1; p_path := g1; p_before_set := u2;
            p_headers := g2; p_before_send := u3; p_payload := g3 |}.
  split; [|split; [|reflexivity]].
  - unfold post_ok. cbn.
    rewrite !spaces_bool, !arg_ok_intro by assumption. reflexivity.
  - unfold post_chain. cbn. list_eq.
Qed.

Lemma Matches_get_set_chain w caps :
  Matches get_set_pattern w caps ->
  exists a, chain_ok a = true /\ w = get_set_chain a
            /\ caps = [path a; headers a].
Proof.
  intros H. apply Matches_get_set_inv in H.
  destruct H as (u1 & g1 & u2 & g2 & -> & -> & Hu1 & Hu2 & H1 & H1' & H2 & H2').
  exists {| before_get := u1; path := g1; before_set := u2; headers := g2 |}.
  split; [|split; [|reflexivity]].
  - unfold chain_ok. cbn.
    rewrite !spaces_bool, !arg_ok_intro by assumption. reflexivity.
  - unfold get_set_chain. cbn. list_eq.
Qed.

Lemma Matches_get_chain w caps :
  Matches get_pattern w caps ->
  exists x, arg_ok x = true /\ w = get_chain x /\ caps = [x].
Proof.
  intros H. apply Matches_get_inv in H. destruct H as (g & -> & -> & Hne & Hg).
  exists g. split; [apply arg_ok_intro; assumption|].
  split; [|reflexivity]. unfold get_chain. list_eq.
Qed.

(** What a conversion rule matches is a chain it converts. *)
Lemma Matches_converts r w caps :
  In r conversion_rules -> Matches (fst r) w caps ->
  converts r w (expand (snd r) caps).
Proof.
  intros [<-|[<-|[<-|[]]]] H; cbn [fst snd get_set_rule get_rule post_rule] in *.
  - apply Matches_get_set_chain in H. destruct H as (a & Ha & -> & ->).
    apply (converts_get_set a Ha).
  - apply Matches_get_chain in H. destruct H as (x & Hx & -> & ->).
    apply (converts_get x Hx).
  - apply Matches_post_chain in H. destruct H as (a & Ha & -> & ->).
    apply (converts_post a Ha).
Qed.

Lemma converts_rule r w out : converts r w out -> In r conversion_rules.
Proof. intros []; simpl; tauto. Qed.

Lemma converts_match r w out rest :
  converts r w out ->
  exists caps, match_here (fst r) (w ++ rest) = Some (caps, rest)
               /\ expand (snd r) caps = out.
Proof.
  intros [a Ha|x Hx|a Ha]; cbn [fst snd get_set_rule get_rule post_rule].
  - eexists. split; [apply get_set_chain_match; exact Ha|reflexivity].
  - eexists. split; [apply get_chain_match; exact Hx|reflexivity].
  - eexists. split; [apply post_chain_match; exact Ha|reflexivity].
Qed.

Lemma conversion_rule_in_rules r : In r conversion_rules -> In r rules.
Proof. intros H. right. exact H. Qed.

(** Where the text begins with a chain the rule converts, the chain is
    replaced by its call and the scan goes on behind it. *)
Lemma converts_step r w out rest :
  converts r w out ->
  re_sub (fst r) (snd r) (w ++ rest)
  = Some (out ++ sub_all (fst r) (snd r) rest).
Proof.
  intros H. pose proof (conversion_rule_in_rules _ (converts_rule _ _ _ H)) as Hr.
  rewrite re_sub_rule by assumption. f_equal.
  destruct (converts_match _ _ _ rest H) as (caps & Hm & <-).
  apply sub_all_some; [apply rules_headed; assumption|exact Hm].
Qed.

(** Where it does not, the character is kept. *)
Lemma converts_skip r c s :
  In r conversion_rules ->
  (forall w out rest, converts r w out -> c :: s <> w ++ rest) ->
  re_sub (fst r) (snd r) (c :: s)
  = Some (c :: sub_all (fst r) (snd r) s).
Proof.
  intros Hr H. rewrite re_sub_rule by (apply conversion_rule_in_rules; assumption).
  f_equal. apply sub_all_none. apply match_here_none.
  intros w rest caps E Hw. apply (H w _ rest (Matches_converts _ _ _ Hr Hw)).
  exact E.
Qed.

(** ** A last argument cut at its first closing parenthesis *)

(** No call is chained to a closing parenthesis that a semicolon follows,
    nor to one behind it when the text ends in [);] without another. *)
Lemma chained_semi u c rest x :
  all_in Space u -> ~ In rparen x ->
  ~ chained u c rest (semi :: x ++ [rparen; semi]).
Proof.
  intros Hu Hx. apply (chained_closed u c rest (semi :: x)); auto.
  intros [H|H]; [discriminate|tauto].
Qed.

Lemma not_chained_to_semi u R T :
  all_in Space u -> semi :: T <> u ++ dot :: R.
Proof.
  intros Hu E. destruct u as [|d u]; [discriminate|].
  injection E as <- _. inversion Hu; subst. discriminate.
Qed.

(** No call is chained in a text without closing parenthesis that is
    followed by [);], a text without closing parenthesis, and [);]. *)
Lemma cut_tail_no_chain x b u c rest :
  all_in Space u -> ~ In rparen x -> ~ In rparen b ->
  ~ chained u c rest (x ++ rparen :: semi :: b ++ [rparen; semi]).
Proof.
  intros Hu Hx Hb H. apply chained_step in H; auto.
  destruct H as [H|H].
  - revert H. apply not_chained_to_semi. exact Hu.
  - revert H. apply chained_semi; auto.
Qed.

Lemma post_chain_cut_no_get a b u rest :
  post_ok a = true -> ~ In rparen b -> all_in Space u ->
  ~ chained u 103 rest (post_chain a ++ b ++ cps ");").
Proof.
  unfold post_ok. rewrite !andb_true_iff.
  intros [[[[[Hw1 Hp] Hw2] Hh] Hw3] Hd] Hb Hu H.
  pose proof (spaces_spec _ Hw1) as Hs1. pose proof (spaces_spec _ Hw2) as Hs2.
  pose proof (spaces_spec _ Hw3) as Hs3.
  apply spaces_no_rparen in Hw1, Hw2, Hw3.
  apply arg_ok_no_rparen in Hp, Hh, Hd.
  replace (post_chain a ++ b ++ cps ");") with
    (opener0 ++ rparen :: (p_before_post a ++ cps ".post(" ++ p_path a)
     ++ rparen :: (p_before_set a ++ cps ".set(" ++ p_headers a)
     ++ rparen :: (p_before_send a ++ cps ".send(" ++ p_payload a)
     ++ rparen :: semi :: b ++ [rparen; semi]) in H
    by (unfold post_chain; list_eq).
  apply chained_step in H; [|exact rparen_not_in_opener0].
  destruct H as [E|H].
  { rewrite <- !app_assoc in E.
    apply (chained_call_unique _ u) in E; auto.
    destruct E as (_ & E & _). discriminate. }
  apply chained_step in H; [|no_rparen].
  destruct H as [E|H].
  { rewrite <- !app_assoc in E.
    apply (chained_call_unique _ u) in E; auto.
    destruct E as (_ & E & _). discriminate. }
  apply chained_step in H; [|no_rparen].
  destruct H as [E|H].
  { rewrite <- !app_assoc in E.
    apply (chained_call_unique _ u) in E; auto.
    destruct E as (_ & E & _). discriminate. }
  revert H. apply cut_tail_no_chain; auto. no_rparen.
Qed.

Lemma cut_tail_scan r b :
  In r conversion_rules -> ~ In rparen b ->
  sub_all (fst r) (snd r) (b ++ cps ");") = b ++ cps ");".
Proof.
  intros Hr Hb. apply rule_no_occurrence; [right; exact Hr|].
  apply no_chained_no_occurrence; [exact Hr|].
  intros u c rest Hu. apply (chained_closed u c rest b); auto.
Qed.

(** A chain a rule converts, followed by [b);]: the chain was written
    with [);b] behind the last argument the rule reads.  The chain is
    replaced by its call and [b);] stays behind. *)
Lemma cut_chain_rewritten r w out b :
  converts r w out -> ~ In rparen b ->
  ~ contains import_line (w ++ b ++ cps ");") ->
  convert_test_file (w ++ b ++ cps ");") = Some (out ++ b ++ cps ");").
Proof.
  intros Hw Hb Himp. rewrite convert_test_file_eq. f_equal.
  rewrite no_import_line_scan by assumption.
  destruct Hw as [a Ha|x Hx|a Ha].
  - rewrite (re_sub_some get_set_pattern get_set_template
               (get_set_chain a ++ b ++ cps ");") _
               (converts_step get_set_rule _ _ (b ++ cps ");")
                  (converts_get_set a Ha))).
    rewrite (cut_tail_scan get_set_rule) by (simpl; tauto || assumption).
    apply later_rules_keep. intros u c rest Hu.
    unfold chain_ok in Ha. rewrite !andb_true_iff in Ha.
    destruct Ha as [[[_ Hp] _] Hh]. apply arg_ok_no_rparen in Hp, Hh.
    replace (get_set_call a ++ b ++ cps ");") with
      ((cps "await app.request(" ++ path a ++ cps ", { method: " ++ dq
        :: cps "GET" ++ dq :: cps ", headers: " ++ headers a ++ cps " }")
       ++ rparen :: semi :: b ++ [rparen; semi])
      by (unfold get_set_call; list_eq).
    apply cut_tail_no_chain; auto. no_rparen.
  - pose proof (arg_ok_no_rparen _ Hx) as Hx'.
    rewrite (rule_no_occurrence get_set_rule); [|simpl; tauto|].
    2:{ intros Ho. apply occurs_get_set_chained_set in Ho.
        destruct Ho as (u & g & post & Hu & _ & _ & Ho).
        replace (get_chain x ++ b ++ cps ");") with
          (opener0 ++ rparen :: (cps ".get(" ++ x)
           ++ rparen :: semi :: b ++ [rparen; semi]) in Ho
          by (unfold get_chain; list_eq).
        apply chained_step in Ho; [|exact rparen_not_in_opener0].
        destruct Ho as [Ho|Ho].
        { rewrite <- app_assoc in Ho.
          apply (chained_call_unique [] u) in Ho; auto using all_in_nil.
          destruct Ho as (_ & Ho & _). discriminate. }
        revert Ho. apply cut_tail_no_chain; auto. no_rparen. }
    rewrite (re_sub_some get_pattern get_template
               (get_chain x ++ b ++ cps ");") _
               (converts_step get_rule _ _ (b ++ cps ");") (converts_get x Hx))).
    rewrite (cut_tail_scan get_rule) by (simpl; tauto || assumption).
    apply (rule_no_occurrence post_rule); [simpl; tauto|].
    apply no_chained_no_occurrence; [simpl; tauto|].
    intros u c rest Hu.
    replace (get_call x ++ b ++ cps ");") with
      ((cps "await app.request(" ++ x ++ cps ", { method: " ++ dq
        :: cps "GET" ++ dq :: cps " }")
       ++ rparen :: semi :: b ++ [rparen; semi])
      by (unfold get_call; list_eq).
    apply cut_tail_no_chain; auto. no_rparen.
  - rewrite (rule_no_occurrence get_set_rule), (rule_no_occurrence get_rule);
      try (simpl; tauto).
    + rewrite (re_sub_some post_pattern post_template
                 (post_chain a ++ b ++ cps ");") _
                 (converts_step post_rule _ _ (b ++ cps ");")
                    (converts_post a Ha))).
      rewrite (cut_tail_scan post_rule) by (simpl; tauto || assumption).
      reflexivity.
    + intros Ho. apply occurs_get_chained in Ho.
      destruct Ho as (g & post & _ & _ & Ho). revert Ho.
      apply post_chain_cut_no_get; auto using all_in_nil.
    + intros Ho. apply occurs_get_set_chained_get in Ho.
      destruct Ho as (u & rest & Hu & Ho). revert Ho.
      apply post_chain_cut_no_get; auto.
Qed.

(** ** Arguments with guarded closing parentheses *)

(** Text without closing parenthesis in front of a guarded text. *)
Lemma guarded_app pre x :
  forallb (fun c => negb (c =? rparen)) pre = true ->
  guarded x = true -> guarded (pre ++ x) = true.
Proof.
  induction pre as [|c pre IH]; intros Hpre Hx; [exact Hx|].
  cbn [forallb] in Hpre. apply andb_true_iff in Hpre. destruct Hpre as [Hc Hpre].
  cbn [app guarded]. rewrite Hc, IH by assumption. reflexivity.
Qed.

(** What stands behind a closing parenthesis of a guarded text. *)
Lemma guarded_at g : forall y,
  guarded (g ++ rparen :: y) = true -> stops (hd rparen y) = true.
Proof.
  induction g as [|c g IH]; intros y H; cbn [app guarded] in H;
    apply andb_true_iff in H; destruct H as [H1 H2].
  - rewrite N.eqb_refl in H1. exact H1.
  - apply IH. exact H2.
Qed.

Lemma head_before_rparen (x : doc) T d R : x ++ rparen :: T = d :: R -> d = hd rparen x.
Proof.
  destruct x; cbn; intros E; injection E as <- _; reflexivity.
Qed.

Lemma stops_chained u R d R0 :
  all_in Space u -> u ++ dot :: R = d :: R0 -> stops d = false.
Proof.
  intros Hu E. destruct u as [|c u]; cbn in E; injection E as <- _.
  - reflexivity.
  - inversion Hu as [|? ? Hc _]; subst. cbn in Hc. unfold stops.
    rewrite Hc. rewrite andb_false_r. reflexivity.
Qed.

(** Behind a closing parenthesis inside a guarded text no call is
    chained: a closing parenthesis with a chained call lies behind it. *)
Lemma after_rparen_guarded x : forall y u R T,
  guarded x = true -> all_in Space u ->
  x ++ rparen :: T = y ++ rparen :: u ++ dot :: R ->
  T = u ++ dot :: R \/ exists y', T = y' ++ rparen :: u ++ dot :: R.
Proof.
  induction x as [|c x IH]; intros y u R T Hx Hu E.
  - destruct y as [|c' y]; cbn [app] in E; injection E as E.
    + left. exact E.
    + right. exists y. assumption.
  - cbn [guarded] in Hx. apply andb_true_iff in Hx. destruct Hx as [Hc Hx].
    destruct y as [|c' y]; cbn [app] in E; injection E as Ec E.
    + exfalso. subst c. rewrite N.eqb_refl in Hc. cbn [negb orb] in Hc.
      destruct (u ++ dot :: R) as [|d R0] eqn:Eu.
      { destruct u; discriminate. }
      pose proof (head_before_rparen _ _ _ _ E) as Hd. subst d.
      rewrite (stops_chained _ _ _ _ Hu Eu) in Hc. discriminate.
    + apply (IH y u R T); assumption.
Qed.

(** An argument without closing parenthesis in front of a text with
    which a rule goes on is the whole of a guarded argument. *)
Lemma cut_guarded g x R R' :
  ~ In rparen g -> guarded x = true ->
  (forall d R0, R = d :: R0 -> stops d = false) ->
  g ++ rparen :: R = x ++ rparen :: R' -> g = x /\ R = R'.
Proof.
  intros Hg Hx HR E. symmetry in E.
  apply split_at_occurrence in E; [|exact Hg].
  destruct E as [[-> ->]|(y' & -> & E)]; [auto|exfalso].
  apply guarded_at in Hx.
  destruct R as [|d R0]; [destruct y'; discriminate|].
  pose proof (head_before_rparen _ _ _ _ E) as Hd. subst d.
  rewrite (HR _ _ eq_refl) in Hx. discriminate.
Qed.

Lemma nested_ok_spec k :
  nested_ok k = true ->
  all_in Space (c_ws k) /\ ~ In lparen (c_name k)
  /\ guarded (c_arg k) = true
  /\ guarded (c_ws k ++ dot :: c_name k ++ lparen :: c_arg k) = true.
Proof.
  unfold nested_ok. rewrite !andb_true_iff. intros [[Hw Hn] Ha].
  split; [apply spaces_spec; exact Hw|]. split; [|split; [exact Ha|]].
  - rewrite forallb_forall in Hn. intros Hin. apply Hn in Hin.
    rewrite N.eqb_refl in Hin. discriminate.
  - apply spaces_no_rparen in Hw.
    assert (Hn' : forallb (fun c => negb (c =? rparen)) (c_name k) = true).
    { rewrite forallb_forall in *. intros c Hc. apply Hn in Hc.
      apply andb_true_iff in Hc. tauto. }
    replace (c_ws k ++ dot :: c_name k ++ lparen :: c_arg k)
      with ((c_ws k ++ dot :: c_name k ++ [lparen]) ++ c_arg k) by list_eq.
    apply guarded_app; [|exact Ha].
    repeat (rewrite forallb_app || cbn [forallb]).
    rewrite ?andb_true_iff. repeat split; (reflexivity || assumption).
Qed.

Lemma calls_head ms post d R0 :
  forallb call_ok ms = true ->
  flat_map render_call ms ++ semi :: post = d :: R0 -> stops d = false.
Proof.
  intros Hok E. destruct ms as [|m ms].
  - cbn in E. injection E as <- _. reflexivity.
  - cbn [forallb] in Hok. apply andb_true_iff in Hok.
    destruct (call_ok_spec m (proj1 Hok)) as (Hws & _).
    cbn [flat_map] in E. unfold render_call at 1 in E.
    repeat (rewrite <- app_assoc in E || rewrite <- app_comm_cons in E).
    apply (stops_chained _ _ _ _ Hws E).
Qed.

Lemma call_eq (k m : call) :
  c_ws k = c_ws m -> c_name k = c_name m -> c_arg k = c_arg m -> k = m.
Proof. destruct k, m; cbn; intros -> -> ->; reflexivity. Qed.

(** A chain of calls that a rule reads from its first call to the
    semicolon is read as it is written. *)
Lemma calls_aligned ms : forall cs post,
  forallb call_ok ms = true -> forallb nested_ok cs = true ->
  flat_map render_call ms ++ semi :: post = flat_map render_call cs ++ [semi] ->
  cs = ms.
Proof.
  induction ms as [|m ms IH]; intros [|k cs] post Hms Hcs E.
  - reflexivity.
  - exfalso. cbn [forallb] in Hcs. apply andb_true_iff in Hcs.
    destruct (nested_ok_spec k (proj1 Hcs)) as (Hws & _).
    cbn [flat_map app] in E. unfold render_call at 1 in E.
    repeat (rewrite <- app_assoc in E || rewrite <- app_comm_cons in E).
    revert E. apply not_chained_to_semi. exact Hws.
  - exfalso. cbn [forallb] in Hms. apply andb_true_iff in Hms.
    destruct (call_ok_spec m (proj1 Hms)) as (Hws & _).
    cbn [flat_map app] in E. unfold render_call at 1 in E.
    repeat (rewrite <- app_assoc in E || rewrite <- app_comm_cons in E).
    symmetry in E. revert E. apply not_chained_to_semi. exact Hws.
  - cbn [forallb] in Hms, Hcs. apply andb_true_iff in Hms, Hcs.
    destruct Hms as [Hm Hms], Hcs as [Hk Hcs].
    destruct (call_ok_spec m Hm) as (Hwm & Hnm & _).
    destruct (nested_ok_spec k Hk) as (Hwk & Hnk & Hak & _).
    assert (Ham : ~ In rparen (c_arg m)).
    { unfold call_ok in Hm. rewrite !andb_true_iff in Hm.
      apply not_in_by_eqb. tauto. }
    cbn [flat_map] in E. unfold render_call at 1 3 in E.
    repeat (rewrite <- app_assoc in E || rewrite <- app_comm_cons in E).
    rewrite ?app_nil_l in E.
    apply (spaces_prefix_unique _ _ dot dot) in E; auto.
    destruct E as (Ew & _ & E).
    apply split_at_first in E; auto. destruct E as [En E].
    apply cut_guarded in E; auto.
    + destruct E as [Ea E]. apply IH in E; auto.
      subst cs. f_equal. apply call_eq; auto.
    + intros d R0 HR. apply (calls_head ms post d R0); auto.
Qed.

(** The call chained to a closing parenthesis of a chain with guarded
    arguments is one of the calls of the chain. *)
Lemma call_after_rparen cs : forall x y u R,
  guarded x = true -> forallb nested_ok cs = true -> all_in Space u ->
  x ++ rparen :: flat_map render_call cs ++ [semi]
  = y ++ rparen :: u ++ dot :: R ->
  exists cs1 k cs2,
    cs = cs1 ++ k :: cs2 /\ u = c_ws k
    /\ R = c_name k ++ lparen :: c_arg k
           ++ rparen :: flat_map render_call cs2 ++ [semi].
Proof.
  induction cs as [|k cs IH]; intros x y u R Hx Hok Hu E.
  - exfalso. apply after_rparen_guarded in E; auto.
    destruct E as [E|(y' & E)].
    + revert E. apply not_chained_to_semi. exact Hu.
    + destruct y' as [|c [|c' y']]; discriminate.
  - cbn [forallb] in Hok. apply andb_true_iff in Hok. destruct Hok as [Hk Hok].
    destruct (nested_ok_spec k Hk) as (Hws & _ & _ & Hg).
    cbn [flat_map] in E. unfold render_call at 1 in E.
    apply after_rparen_guarded in E; auto.
    destruct E as [E|(y' & E)].
    + repeat (rewrite <- app_assoc in E || rewrite <- app_comm_cons in E).
      rewrite ?app_nil_l in E.
      apply (spaces_prefix_unique _ _ dot dot) in E; auto.
      destruct E as (E1 & _ & E2).
      exists [], k, cs. repeat split; auto.
    + match type of E with
      | ?T = _ =>
          replace T with ((c_ws k ++ dot :: c_name k ++ lparen :: c_arg k)
                          ++ rparen :: flat_map render_call cs ++ [semi]) in E
            by list_eq
      end.
      apply IH in E; auto.
      destruct E as (cs1 & k' & cs2 & -> & E1 & E2).
      exists (k :: cs1), k', cs2. auto.
Qed.

(** What a conversion rule converts is a chain of calls without closing
    parentheses in their arguments, the first a [get] or a [post]. *)
Lemma converts_calls r w out :
  converts r w out ->
  exists m ms, w = call_chain (m :: ms) /\ forallb call_ok (m :: ms) = true
               /\ (c_name m = cps "get" \/ c_name m = cps "post").
Proof.
  intros [a Ha|x Hx|a Ha].
  - unfold chain_ok in Ha. rewrite !andb_true_iff in Ha.
    destruct Ha as [[[Hw1 Hp] Hw2] Hh]. apply arg_ok_no_rparen in Hp, Hh.
    exists {| c_ws := before_get a; c_name := cps "get"; c_arg := path a |},
      [ {| c_ws := before_set a; c_name := cps "set"; c_arg := headers a |} ].
    split; [|split; [|left; reflexivity]].
    + unfold get_set_chain, call_chain. cbn [flat_map]. unfold render_call.
      cbn [c_ws c_name c_arg]. list_eq.
    + unfold call_ok. cbn [forallb c_ws c_name c_arg].
      rewrite Hw1, Hw2, Hp, Hh. reflexivity.
  - apply arg_ok_no_rparen in Hx.
    exists {| c_ws := []; c_name := cps "get"; c_arg := x |}, [].
    split; [|split; [|left; reflexivity]].
    + unfold get_chain, call_chain. cbn [flat_map]. unfold render_call.
      cbn [c_ws c_name c_arg]. list_eq.
    + unfold call_ok. cbn [forallb c_ws c_name c_arg].
      rewrite Hx. reflexivity.
  - unfold post_ok in Ha. rewrite !andb_true_iff in Ha.
    destruct Ha as [[[[[Hw1 Hp] Hw2] Hh] Hw3] Hd].
    apply arg_ok_no_rparen in Hp, Hh, Hd.
    exists {| c_ws := p_before_post a; c_name := cps "post"; c_arg := p_path a |},
      [ {| c_ws := p_before_set a; c_name := cps "set"; c_arg := p_headers a |};
        {| c_ws := p_before_send a; c_name := cps "send";
           c_arg := p_payload a |} ].
    split; [|split; [|right; reflexivity]].
    + unfold post_chain, call_chain. cbn [flat_map]. unfold render_call.
      cbn [c_ws c_name c_arg]. list_eq.
    + unfold call_ok. cbn [forallb c_ws c_name c_arg].
      rewrite Hw1, Hw2, Hw3, Hp, Hh, Hd. reflexivity.
Qed.

Lemma call_ok_no_rparen cs k :
  forallb call_ok cs = true -> In k cs -> ~ In rparen (c_arg k).
Proof.
  rewrite forallb_forall. intros H Hk. apply H in Hk.
  unfold call_ok in Hk. rewrite !andb_true_iff in Hk.
  apply not_in_by_eqb. tauto.
Qed.

(** No conversion rule matches anywhere in a chain of calls in which some
    argument holds a closing parenthesis, every closing parenthesis inside
    an argument is guarded, and no call behind the first is a [get] or a
    [post]. *)
Lemma nested_chain_no_occurrence r k0 cs :
  In r conversion_rules ->
  forallb nested_ok (k0 :: cs) = true ->
  (exists k, In k (k0 :: cs) /\ In rparen (c_arg k)) ->
  (forall k, In k cs -> c_name k <> cps "get" /\ c_name k <> cps "post") ->
  ~ occurs (fst r) (call_chain (k0 :: cs)).
Proof.
  intros Hr Hok (kp & Hkp & Hp) Hnames (pre & w & post & caps & E & Hw).
  apply (Matches_converts _ _ _ Hr) in Hw. apply converts_calls in Hw.
  destruct Hw as (m & ms & -> & Hms & Hm).
  rewrite !call_chain_unfold in E.
  assert (E' : (pre ++ opener0)
               ++ rparen :: flat_map render_call (m :: ms) ++ semi :: post
               = opener0 ++ rparen :: flat_map render_call (k0 :: cs) ++ [semi]).
  { rewrite E. list_eq. }
  clear E. apply split_at_occurrence in E'; [|exact rparen_not_in_opener0].
  destruct E' as [[_ E]|(y' & _ & E)].
  - apply calls_aligned in E; auto. rewrite E in Hkp.
    exact (call_ok_no_rparen _ _ Hms Hkp Hp).
  - cbn [forallb] in Hok, Hms. apply andb_true_iff in Hok, Hms.
    destruct Hok as [Hk0 Hok], Hms as [Hm' _].
    destruct (nested_ok_spec k0 Hk0) as (_ & _ & _ & Hg).
    destruct (call_ok_spec m Hm') as (Hwm & Hnm & _).
    cbn [flat_map] in E.
    change (render_call k0) with
      (c_ws k0 ++ dot :: c_name k0 ++ lparen :: c_arg k0 ++ [rparen]) in E.
    change (render_call m) with
      (c_ws m ++ dot :: c_name m ++ lparen :: c_arg m ++ [rparen]) in E.
    match type of E with
    | _ = ?T =>
        replace T with ((c_ws k0 ++ dot :: c_name k0 ++ lparen :: c_arg k0)
                        ++ rparen :: flat_map render_call cs ++ [semi]) in E
          by list_eq
    end.
    match type of E with
    | ?T = _ =>
        replace T with (y' ++ rparen :: c_ws m ++ dot
                        :: (c_name m ++ lparen :: c_arg m ++ rparen
                            :: flat_map render_call ms ++ semi :: post)) in E
          by list_eq
    end.
    symmetry in E. apply call_after_rparen in E; auto.
    destruct E as (cs1 & k & cs2 & Ecs & _ & E).
    assert (Hk : In k cs).
    { rewrite Ecs. apply in_or_app. right. left. reflexivity. }
    assert (Hnk : ~ In lparen (c_name k)).
    { rewrite forallb_forall in Hok.
      destruct (nested_ok_spec k (Hok k Hk)) as (_ & H & _). exact H. }
    apply split_at_first in E; auto. destruct E as [En _].
    destruct (Hnames k Hk) as [H1 H2]. destruct Hm; congruence.
Qed.

(** Such a chain goes through the rewriter unchanged. *)
Lemma nested_chain_kept k0 cs :
  forallb nested_ok (k0 :: cs) = true ->
  (exists k, In k (k0 :: cs) /\ In rparen (c_arg k)) ->
  (forall k, In k cs -> c_name k <> cps "get" /\ c_name k <> cps "post") ->
  ~ contains import_line (call_chain (k0 :: cs)) ->
  convert_test_file (call_chain (k0 :: cs)) = Some (call_chain (k0 :: cs)).
Proof.
  intros Hok Hp Hnames Himp. apply rules_keep; auto.
  intros r Hr. apply nested_chain_no_occurrence; auto.
Qed.

(** ** What becomes of a chain with a closing parenthesis in an argument *)

(** C9 (amended): the conversion rules cut every argument at the first
    closing parenthesis behind its opening one, so what they capture never
    holds a closing parenthesis.  Reading the text from the left, a rule
    replaces a chain by its call exactly where the text begins with a
    chain of the rule's shape whose arguments are not empty and hold no
    closing parenthesis, and goes on behind it; everywhere else it keeps
    the character.  So a chain whose argument was meant to hold a closing
    parenthesis is rewritten all the same when the text continues as the
    rule requires: a chain of one of the three shapes written with [a);b]
    as its last argument, [a] and the other arguments not empty, [a], [b]
    and the other arguments free of closing parentheses and no import
    line inside, becomes the call with the last argument [a], followed by
    [b);].  It comes back unchanged when it is a chain of calls in which
    some argument holds a closing parenthesis, every closing parenthesis
    inside an argument stands directly in front of a character other than
    a semicolon, a dot and white space, no call behind the first is a
    [get] or a [post], and the import line is not in the chain;
    [await request(app.fetch as any).get(f('/x'));] is such a chain. *)
Theorem C9_argument_cut_at_first_paren :
  (forall r, In r conversion_rules ->
     forall s caps rest, match_here (fst r) s = Some (caps, rest) ->
       exists w, s = w ++ rest /\ Forall (fun c => in_parentheses c w) caps)
  /\ (forall r w out rest, converts r w out ->
        re_sub (fst r) (snd r) (w ++ rest)
        = Some (out ++ sub_all (fst r) (snd r) rest))
  /\ (forall r c s, In r conversion_rules ->
        (forall w out rest, converts r w out -> c :: s <> w ++ rest) ->
        re_sub (fst r) (snd r) (c :: s)
        = Some (c :: sub_all (fst r) (snd r) s))
  /\ (forall r w out b, converts r w out -> ~ In rparen b ->
        ~ contains import_line (w ++ b ++ cps ");") ->
        convert_test_file (w ++ b ++ cps ");") = Some (out ++ b ++ cps ");"))
  /\ (forall k0 cs, forallb nested_ok (k0 :: cs) = true ->
        (exists k, In k (k0 :: cs) /\ In rparen (c_arg k)) ->
        (forall k, In k cs -> c_name k <> cps "get" /\ c_name k <> cps "post") ->
        ~ contains import_line (call_chain (k0 :: cs)) ->
        convert_test_file (call_chain (k0 :: cs)) = Some (call_chain (k0 :: cs)))
  /\ convert_test_file (get_chain (cps "f('/x')"))
     = Some (get_chain (cps "f('/x')")).
Proof.
  split; [|split; [exact converts_step|split; [exact converts_skip|split;
    [exact cut_chain_rewritten|split;
      [exact nested_chain_kept|vm_compute; reflexivity]]]]].
  intros r Hr s caps rest H. apply match_here_sound in H.
  destruct H as (w & E & Hw). exists w. split; [exact E|].
  apply (captures_in_parentheses r); assumption.
Qed.

Lemma C9_argument_cut_at_first_paren_witness :
  re_sub get_set_pattern get_set_template
    (get_set_chain sample_a2 ++ cps " // next")
  = Some (get_set_call sample_a2
          ++ sub_all get_set_pattern get_set_template (cps " // next"))
  /\ re_sub get_pattern get_template (get_chain (cps "f('/x')"))
     = Some (97 :: sub_all get_pattern get_template
                     (cps "wait request(app.fetch as any).get(f('/x'));"))
  /\ convert_test_file (get_chain (cps "'/a") ++ cps "b'" ++ cps ");")
     = Some (get_call (cps "'/a") ++ cps "b'" ++ cps ");")
  /\ convert_test_file (post_chain sample_post ++ cps " // x" ++ cps ");")
     = Some (post_call sample_post ++ cps " // x" ++ cps ");")
  /\ convert_test_file (call_chain sample_nested)
     = Some (call_chain sample_nested).
Proof.
  destruct C9_argument_cut_at_first_paren as (_ & H2 & H3 & H4 & H5 & _).
  split; [|split; [|split; [|split]]].
  - apply (H2 get_set_rule). constructor. reflexivity.
  - apply (H3 get_rule); [simpl; tauto|].
    intros w out rest Hw E.
    inversion Hw as [a Ha Er|x Hx Er|a Ha Er]; subst.
    apply arg_ok_spec in Hx. destruct Hx as [_ Hx].
    change (cps "await request(app.fetch as any).get(" ++ cps "f('/x'"
            ++ rparen :: cps ");"
            = (cps "await request(app.fetch as any).get(" ++ x ++ cps ");")
              ++ rest) in E.
    rewrite <- app_assoc in E. apply app_inv_head in E.
    rewrite <- app_assoc in E.
    change (cps ");" ++ rest) with (rparen :: semi :: rest) in E.
    apply split_at_first in E; [|apply not_in_by_eqb; reflexivity|exact Hx].
    destruct E as [_ E]. discriminate.
  - apply (H4 get_rule); [constructor; reflexivity
                         |apply not_in_by_eqb; reflexivity|].
    apply no_import_line. run.
  - apply (H4 post_rule); [constructor; reflexivity
                          |apply not_in_by_eqb; reflexivity|].
    apply no_import_line. run.
  - apply H5; [reflexivity| | |apply no_import_line; run].
    + eexists. split; [left; reflexivity|].
      change (In rparen (cps "url('/a'" ++ [rparen])).
      apply in_or_app. right. left. reflexivity.
    + intros k [<-|[]]. split; discriminate.
Defined.
